(** * imgtransform: halftone, Bayer dither and posterize

    A shallow embedding of [imgtransform.py].  Each of the three
    transforms opens a file, converts it to an 8-bit grayscale image,
    computes a new image and saves it.  Decoding and encoding are
    Pillow's; here a transform takes the decoded grayscale image (a grid
    of samples in 0..255) and returns the image it hands to [save]. *)

From Stdlib Require Import ZArith List Bool QArith Lia Floats Uint63 ArithRing.
From Stdlib Require Import Reals Lra.
Import ListNotations.
Local Open Scope Z_scope.

(** ** Exceptions

    The only exception the transforms can raise on a decoded image is
    Python's [ValueError]: from [range] with a zero step and from
    [Image.new] with a negative size. *)

Inductive exn : Set := ValueError.

Inductive result (A : Type) : Type :=
| Ok (a : A)
| Raise (e : exn).

Arguments Ok {A} a.
Arguments Raise {A} e.

Definition bind {A B : Type} (c : result A) (k : A -> result B) : result B :=
  match c with
  | Ok a => k a
  | Raise e => Raise e
  end.

Notation "x <- c ;; k" := (bind c (fun x => k))
  (at level 61, c at next level, right associativity).

(** A [for] loop whose body updates the state [S] and may raise. *)
Fixpoint for_each {A S : Type} (xs : list A) (body : S -> A -> result S) (s : S)
  : result S :=
  match xs with
  | [] => Ok s
  | x :: xs' => s' <- body s x ;; for_each xs' body s'
  end.

(** ** Python's [range]

    [range(start, stop, step)] raises [ValueError] when [step] is zero;
    otherwise it has [range_length] items, the [i]-th being
    [start + i * step] (CPython's [compute_range_length] and
    [compute_item]). *)

Definition range_length (lo hi step : Z) : Z :=
  if 0 <? step then (if lo <? hi then 1 + (hi - 1 - lo) / step else 0)
  else (if hi <? lo then 1 + (lo - 1 - hi) / (- step) else 0).

Definition range (start stop step : Z) : result (list Z) :=
  if step =? 0 then Raise ValueError
  else Ok (map (fun i => start + Z.of_nat i * step)
               (seq 0 (Z.to_nat (range_length start stop step)))).

(** ** Numbers

    [halftone] and [bayer_dither] compute on binary64 floats.  Their
    arithmetic is written over the operators of the class [Number],
    whose instance [float64] is Rocq's primitive binary64 floats, which
    round as CPython and NumPy do.  What does not depend on the
    arithmetic is proved for every instance. *)

Class Number (F : Type) : Type := {
  of_int : Z -> F;
  nadd : F -> F -> F;
  nsub : F -> F -> F;
  nmul : F -> F -> F;
  ndiv : F -> F -> F;
  ngtb : F -> F -> bool
}.

Declare Scope num_scope.
Delimit Scope num_scope with num.
Notation "a + b" := (nadd a b) : num_scope.
Notation "a - b" := (nsub a b) : num_scope.
Notation "a * b" := (nmul a b) : num_scope.
Notation "a / b" := (ndiv a b) : num_scope.
Notation "a >? b" := (ngtb a b) : num_scope.
Notation "# z" := (of_int z%Z) (at level 5, format "# z") : num_scope.

(** Python's conversion of an integer to a float, for integers below
    2^63 in magnitude: the nearest binary64 float, which is the integer
    itself below 2^53.  (Past 2^63 this function wraps, and Python keeps
    rounding until it raises [OverflowError] past the binary64 range;
    the theorems about [halftone] keep [dot_size * scale] below 2^53,
    see [exactly_representable].) *)
Definition float_of_Z (z : Z) : float :=
  if z <? 0 then PrimFloat.opp (PrimFloat.of_uint63 (Uint63.of_Z (- z)))
  else PrimFloat.of_uint63 (Uint63.of_Z z).

#[export] Instance float64 : Number float := {|
  of_int := float_of_Z;
  nadd := PrimFloat.add;
  nsub := PrimFloat.sub;
  nmul := PrimFloat.mul;
  ndiv := PrimFloat.div;
  ngtb := fun a b => PrimFloat.ltb b a
|}.

(** The integers that binary64 holds exactly and that every conversion
    and true division of [halftone] therefore handles without rounding
    or overflow. *)
Definition exactly_representable (z : Z) : Prop := z < 2 ^ 53.


(** ** Grayscale images

    An image of mode ['L'] is a list of rows of samples.  [np.array]
    of it has shape [(height, width)]. *)

Definition grid : Type := list (list Z).

Definition height (g : grid) : nat := length g.

Definition width (g : grid) : nat :=
  match g with
  | [] => O
  | row :: _ => length row
  end.

(** [g[y][x]], with 0 outside the image. *)
Definition getpixel (g : grid) (x y : nat) : Z := nth x (nth y g []) 0.

(** What [Image.open(...).convert('L')] returns: a rectangle of 8-bit
    samples. *)
Definition wf_grid (g : grid) : Prop :=
  Forall (fun row => length row = width g) g /\
  Forall (Forall (fun p => 0 <= p <= 255)) g.

(** A list transformed with the index of each item at hand. *)
Fixpoint mapi_from {A B : Type} (i : nat) (f : nat -> A -> B) (l : list A) : list B :=
  match l with
  | [] => []
  | a :: l' => f i a :: mapi_from (S i) f l'
  end.

Definition mapi {A B : Type} (f : nat -> A -> B) (l : list A) : list B :=
  mapi_from O f l.

(** [l[lo:hi]] for [0 <= lo]. *)
Definition slice {A : Type} (lo hi : Z) (l : list A) : list A :=
  firstn (Z.to_nat (hi - lo)) (skipn (Z.to_nat lo) l).

(** [img.crop((x0, y0, x1, y1))] for a box inside the image. *)
Definition crop (img : grid) (box : Z * Z * Z * Z) : grid :=
  let '(x0, y0, x1, y1) := box in
  map (slice x0 x1) (slice y0 y1 img).

Definition sum (l : list Z) : Z := fold_right Z.add 0 l.

(** [Image.new('L', (w, h), color)]. *)
Definition Image_new (w h color : Z) : result grid :=
  if (w <? 0) || (h <? 0) then Raise ValueError
  else Ok (repeat (repeat color (Z.to_nat w)) (Z.to_nat h)).

(** ** posterize (lines 107-125) *)

(** [.astype(np.uint8)] of an integer. *)
Definition astype_uint8 (v : Z) : Z := v mod 256.

(** [np.where(img_array > threshold, 255, 0).astype(np.uint8)]. *)
Definition posterize (img_array : grid) (threshold : Z) : grid :=
  map (map (fun p => astype_uint8 (if p >? threshold then 255 else 0))) img_array.

Section Transforms.

Context {F : Type} {num : Number F}.
Local Open Scope num_scope.

(** ** bayer_dither (lines 66-104) *)

(** The matrix literal of lines 75-84. *)
Definition bayer_raw : list (list Z) :=
  [ [ 0; 32;  8; 40;  2; 34; 10; 42];
    [48; 16; 56; 24; 50; 18; 58; 26];
    [12; 44;  4; 36; 14; 46;  6; 38];
    [60; 28; 52; 20; 62; 30; 54; 22];
    [ 3; 35; 11; 43;  1; 33;  9; 41];
    [51; 19; 59; 27; 49; 17; 57; 25];
    [15; 47;  7; 39; 13; 45;  5; 37];
    [63; 31; 55; 23; 61; 29; 53; 21] ]%Z.

(** [bayer_matrix = (bayer_matrix / 64.0) * 255.0] on the float array. *)
Definition bayer_matrix : list (list F) :=
  map (map (fun v => (#v / #64) * #255)) bayer_raw.

(** [a[i, j]] on a two-dimensional float array. *)
Definition getitem (m : list (list F)) (i j : nat) : F :=
  nth j (nth i m []) #0.

(** Lines 90-100: the float copy of the image, and the output array
    filled pixel by pixel. *)
Definition bayer_dither (img : grid) : grid :=
  let img_array := map (map of_int) img in
  let height := height img in
  let width := width img in
  map (fun y =>
    map (fun x =>
      let threshold := getitem bayer_matrix (y mod 8) (x mod 8) in
      if getitem img_array y x >? threshold then 255%Z else 0%Z)
      (seq 0 width))
    (seq 0 height).

(** ** halftone (lines 14-63) *)

(** [np.array(region).mean()]: NumPy adds the samples up in binary64,
    which is exact for integers below 2^53, and divides by their
    number. *)
Definition np_mean (region : grid) : F :=
  #(sum (concat region)) / #(Z.of_nat (length (concat region))).

(** Line 48. *)
Definition dot_radius (avg_brightness : F) (dot_size scale : Z) : F :=
  ((#255 - avg_brightness) / #255) * (#(dot_size * scale) / #2).

(** Lines 52-53: [(x + dot_size / 2) * scale]. *)
Definition center (x dot_size scale : Z) : F :=
  (#x + #dot_size / #2) * #scale.

(** The bounding box handed to [draw.ellipse]. *)
Definition box : Type := (F * F * F * F)%type.

(** [ImageDraw.Draw(output)]: the image drawn on, and the [ellipse]
    calls made so far, oldest first. *)
Record ImageDraw : Type := {
  im : grid;
  calls : list box
}.

(** Pillow's rasterizer: whether the filled ellipse inscribed in a box
    covers the pixel in column [x] of row [y]. *)
Variable covers : box -> nat -> nat -> bool.

(** What [draw.ellipse(xy, fill=fill)] does to the image: covered
    pixels take the fill value, the others keep theirs. *)
Definition fill_ellipse (xy : box) (fill : Z) (g : grid) : grid :=
  mapi (fun y row => mapi (fun x old => if covers xy x y then fill else old) row) g.

Definition ellipse (draw : ImageDraw) (xy : box) (fill : Z) : ImageDraw :=
  {| im := fill_ellipse xy fill (im draw);
     calls := calls draw ++ [xy] |}.

(** The body of the inner loop, lines 37-60.  The literal [0.5] is
    written [1 / 2], which is the same number in both instances. *)
Definition halftone_cell (img : grid) (dot_size scale width height : Z)
  (draw : ImageDraw) (x y : Z) : ImageDraw :=
  let region :=
    crop img (x, y, Z.min (x + dot_size) width, Z.min (y + dot_size) height) in
  let avg_brightness := np_mean region in
  let dot_radius := dot_radius avg_brightness dot_size scale in
  if dot_radius >? #1 / #2 then
    let center_x := center x dot_size scale in
    let center_y := center y dot_size scale in
    ellipse draw
      (center_x - dot_radius, center_y - dot_radius,
       center_x + dot_radius, center_y + dot_radius) 0
  else draw.

(** Lines 26-60, from the decoded image to the [Draw] object whose image
    line 62 hands to [save]; [save] itself, like [open], is Pillow's
    and is not part of this function. *)
Definition halftone (img : grid) (dot_size scale : Z) : result ImageDraw :=
  let width := Z.of_nat (width img) in
  let height := Z.of_nat (height img) in
  let output_width := (width * scale)%Z in
  let output_height := (height * scale)%Z in
  output <- Image_new output_width output_height 255 ;;
  let draw := {| im := output; calls := [] |} in
  ys <- range 0 height dot_size ;;
  for_each ys (fun draw y =>
    xs <- range 0 width dot_size ;;
    for_each xs (fun draw x =>
      Ok (halftone_cell img dot_size scale width height draw x y)) draw) draw.

End Transforms.

Arguments box F : clear implicits.
Arguments ImageDraw F : clear implicits.

(** ** A rasterizer to run the model with

    Pillow's rasterizer is not part of the program.  The theorems below
    hold for every rasterizer; the examples run with this one, which
    inks a pixel when it lies in the ellipse inscribed in the box. *)
Definition inscribed {F : Type} {num : Number F} (xy : box F) (x y : nat) : bool :=
  let '(x0, y0, x1, y1) := xy in
  let a := (x1 - x0)%num in
  let b := (y1 - y0)%num in
  let dx := (#(Z.of_nat x) + #(Z.of_nat x) - (x0 + x1))%num in
  let dy := (#(Z.of_nat y) + #(Z.of_nat y) - (y0 + y1))%num in
  negb (dx * dx * (b * b) + dy * dy * (a * a) >? a * a * (b * b))%num.

(** ** The transforms as the specification words them *)

(** The Bayer matrix printed in section 6 of the specification. *)
Definition spec_matrix : list (list Z) :=
  [ [0; 32; 8; 40; 2; 34; 10; 42];
    [48; 16; 56; 24; 50; 18; 58; 26];
    [12; 44; 4; 36; 14; 46; 6; 38];
    [60; 28; 52; 20; 62; 30; 54; 22];
    [3; 35; 11; 43; 1; 33; 9; 41];
    [51; 19; 59; 27; 49; 17; 57; 25];
    [15; 47; 7; 39; 13; 45; 5; 37];
    [63; 31; 55; 23; 61; 29; 53; 21] ].

(** Its threshold for the pixel in column [x] of row [y], as a rational:
    [matrix[y mod 8][x mod 8] * 255 / 64]. *)
Definition spec_threshold (x y : nat) : Q :=
  (inject_Z (nth (x mod 8)%nat (nth (y mod 8)%nat spec_matrix []) 0%Z) * 255 / 64)%Q.

(** Every sample of an image is black or white. *)
Definition binary (g : grid) : Prop :=
  Forall (Forall (fun v => v = 0 \/ v = 255)) g.

(** An image is [w] samples wide and [h] high. *)
Definition has_size (g : grid) (w h : Z) : Prop :=
  Z.of_nat (length g) = h /\ Forall (fun row => Z.of_nat (length row) = w) g.

(** The white canvas of [w] by [h] samples. *)
Definition blank (w h : Z) : grid :=
  repeat (repeat 255 (Z.to_nat w)) (Z.to_nat h).

(** The integers from [lo] up to, not including, [hi]. *)
Definition zrange (lo hi : Z) : list Z :=
  map (fun i => lo + Z.of_nat i) (seq 0 (Z.to_nat (hi - lo))).

(** The number of cells of side [d] it takes to cover [n] samples. *)
Definition ceil_div (n d : Z) : Z := (n + d - 1) / d.

(** The top-left corners of the cells of side [d] that tile a [w] by [h]
    image from (0,0), row by row. *)
Definition spec_cells (w h d : Z) : list (Z * Z) :=
  flat_map (fun j => map (fun i => (i * d, j * d)) (zrange 0 (ceil_div w d)))
           (zrange 0 (ceil_div h d)).

(** The pixel [(px, py)] lies in the cell with corner [c], clipped to
    the image. *)
Definition in_cell (w h d : Z) (c : Z * Z) (px py : Z) : Prop :=
  fst c <= px < Z.min (fst c + d) w /\ snd c <= py < Z.min (snd c + d) h.

(** The pixels of the clipped cell with corner [c]. *)
Definition spec_cell_pixels (w h d : Z) (c : Z * Z) : list (Z * Z) :=
  flat_map (fun py => map (fun px => (px, py)) (zrange (fst c) (Z.min (fst c + d) w)))
           (zrange (snd c) (Z.min (snd c + d) h)).

Section Spec.

Context {F : Type} {num : Number F}.
Local Open Scope num_scope.

(** The arithmetic mean of the samples of a clipped cell. *)
Definition spec_avg (img : grid) (d : Z) (c : Z * Z) : F :=
  let pixels :=
    spec_cell_pixels (Z.of_nat (width img)) (Z.of_nat (height img)) d c in
  #(sum (map (fun p => getpixel img (Z.to_nat (fst p)) (Z.to_nat (snd p))) pixels))
  / #(Z.of_nat (length pixels)).

(** The bounding box of the circle of radius [r] around [(cx, cy)]. *)
Definition circle (cx cy r : F) : box F :=
  (cx - r, cy - r, cx + r, cy + r).

(** The dot of the cell at [(cell_x, cell_y)], in the words of the
    specification: its radius is
    [((255 - avg_brightness) / 255) * (dot_size * scale / 2)]; when the
    radius exceeds 0.5 the dot is the circle of that radius around
    [((cell_x + dot_size/2) * scale, (cell_y + dot_size/2) * scale)],
    otherwise there is none. *)
Definition spec_dot (img : grid) (dot_size scale : Z) (c : Z * Z) : list (box F) :=
  let '(cell_x, cell_y) := c in
  let avg_brightness := spec_avg img dot_size c in
  let r := ((#255 - avg_brightness) / #255) * (#(dot_size * scale) / #2) in
  if r >? #1 / #2
  then [circle ((#cell_x + #dot_size / #2) * #scale)
               ((#cell_y + #dot_size / #2) * #scale) r]
  else [].

(** The [ellipse] calls of one pass through the body of halftone's inner
    loop, at the cell with corner [c]. *)
Definition cell_calls (img : grid) (dot_size scale : Z) (c : Z * Z) : list (box F) :=
  let w := Z.of_nat (width img) in
  let h := Z.of_nat (height img) in
  let r := dot_radius
             (np_mean (crop img (fst c, snd c,
                                 Z.min (fst c + dot_size) w,
                                 Z.min (snd c + dot_size) h)))
             dot_size scale in
  if ngtb r (ndiv (of_int 1) (of_int 2))
  then [circle (center (fst c) dot_size scale) (center (snd c) dot_size scale) r]
  else [].

(** The canvas after black ellipses were drawn into the given boxes, in
    order. *)
Definition paint (covers : box F -> nat -> nat -> bool) (boxes : list (box F))
  (g : grid) : grid :=
  fold_left (fun g xy => fill_ellipse covers xy 0 g) boxes g.

End Spec.

(** On binary64 floats the scaled thresholds and the samples are exact,
    so the comparison of line 100 is the comparison of the integers
    [64 * p] and [255 * v]: checked on each of the 64 entries and each
    of the 256 samples. *)
Definition threshold_agrees (i j : nat) (p : Z) : bool :=
  Bool.eqb (ngtb (float_of_Z p) (getitem (F := float) bayer_matrix i j))
           (255 * nth j (nth i bayer_raw []) 0 <? 64 * p).

(** ** Sample images *)

(** The uniform [n] by [n] image of sample [v]. *)
Definition uniform (n : nat) (v : Z) : grid := repeat (repeat v n) n.

(** The uniform black image of Scenarios B and F. *)
Definition black_8x8 : grid := uniform 8 0.

(** A 3 by 3 image: with cells of side 2 the last column and row are
    clipped. *)
Definition sample_3x3 : grid := [[0; 3; 9]; [100; 7; 9]; [1; 1; 1]].

(** An image nowhere darker than [sample_3x3], and a black-and-white
    one. *)
Definition brighter_3x3 : grid := [[10; 3; 9]; [100; 70; 9]; [1; 1; 255]].

Definition bw_3x3 : grid := [[0; 255; 0]; [255; 255; 0]; [0; 0; 255]].

(** ** Comparing and measuring images *)

(** [a] is nowhere brighter than [b]: they have the same shape and each
    sample of [a] is at most the sample of [b] in its place. *)
Definition darker (a b : grid) : Prop := Forall2 (Forall2 Z.le) a b.

(** The number of white samples of an image. *)
Definition count_white (g : grid) : nat :=
  length (filter (Z.eqb 255) (concat g)).

(** Whether a sample [g] exceeds the scaled threshold [v * 255 / 64]. *)
Definition exceeds (g v : Z) : bool := 255 * v <? 64 * g.

(** The number of entries in row [i] of the threshold matrix, and in the
    whole matrix, that a sample [g] exceeds. *)
Definition tile_row_white (g : Z) (i : nat) : nat :=
  list_sum (map (fun j =>
    if exceeds g (nth j (nth i bayer_raw []) 0) then 1%nat else 0%nat) (seq 0 8)).

Definition tile_white (g : Z) : nat :=
  list_sum (map (tile_row_white g) (seq 0 8)).

(** A pixel is inside an image. *)
Definition inside (g : grid) (x y : nat) : Prop :=
  (y < length g)%nat /\ (x < length (nth y g []))%nat.

(** ** Rounding of binary64 arithmetic

    The reals that the floats of [SpecFloat] stand for, and what it
    means for an operation to round to nearest, ties to even. *)

(** [2 ^ e] as a real. *)
Definition bpow (e : Z) : R := powerRZ 2 e.

(** [inbetween m l u]: the real [u] lies in [[m, m + 1)] at the place
    the location [l] names. *)
Definition inbetween (m : Z) (l : location) (u : R) : Prop :=
  match l with
  | loc_Exact => u = IZR m
  | loc_Inexact Lt => (IZR m < u < IZR m + / 2)%R
  | loc_Inexact Eq => u = (IZR m + / 2)%R
  | loc_Inexact Gt => (IZR m + / 2 < u < IZR m + 1)%R
  end.

(** What a shift record says of the real it was cut from. *)
Definition located (mrs : shr_record) (u : R) : Prop :=
  0 <= shr_m mrs /\ inbetween (shr_m mrs) (loc_of_shr_record mrs) u.

(** [N] is an integer nearest to [r], and even when [r] is half way. *)
Definition nearest_even (N : Z) (r : R) : Prop :=
  (r - / 2 < IZR N < r + / 2)%R \/
  ((IZR N = r - / 2 \/ IZR N = r + / 2)%R /\ Z.even N = true).

(** [rounded prec x v]: [v] is the multiple of [2 ^ (k - prec)] nearest
    to [x], ties to even, where [2 ^ (k - 1) <= x < 2 ^ k]. *)
Definition rounded (prec : Z) (x v : R) : Prop :=
  exists k N, (bpow (k - 1) <= x < bpow k)%R /\
    v = (IZR N * bpow (k - prec))%R /\
    nearest_even N (x / bpow (k - prec)).

(** [is_value f v]: [f] is a zero or a positive finite number, and [v]
    is the real it stands for. *)
Definition is_value (f : spec_float) (v : R) : Prop :=
  match f with
  | S754_zero _ => v = 0%R
  | S754_finite false m e => v = (IZR (Z.pos m) * bpow e)%R
  | _ => False
  end.

(** Zero rounds to zero, anything else in the normal range to nearest. *)
Definition rounded0 (prec : Z) (x v : R) : Prop :=
  (x = 0 /\ v = 0)%R \/ rounded prec x v.

(** The normal range, short of overflow. *)
Definition normal (prec emax : Z) (x : R) : Prop :=
  (bpow (SpecFloat.emin prec emax + prec - 1) <= x < bpow (emax - 1))%R.

(** * Lists and grids *)

Lemma mapi_from_length {A B : Type} (f : nat -> A -> B) (l : list A) (i : nat) :
  length (mapi_from i f l) = length l.
Proof.
  revert i; induction l as [|a l IH]; intros i; simpl; [reflexivity|].
  now rewrite IH.
Qed.

Lemma mapi_from_Forall {A B : Type} (P : A -> Prop) (Q : B -> Prop)
  (f : nat -> A -> B) (l : list A) (i : nat) :
  (forall j a, P a -> Q (f j a)) -> Forall P l -> Forall Q (mapi_from i f l).
Proof.
  intros Hf Hl. revert i.
  induction Hl as [|a l Ha _ IH]; intros i; simpl; constructor.
  - now apply Hf.
  - apply IH.
Qed.

Lemma nth_map_in {A B : Type} (f : A -> B) (l : list A) (n : nat) (d : A) (e : B) :
  (n < length l)%nat -> nth n (map f l) e = f (nth n l d).
Proof.
  intros Hn. rewrite (nth_indep _ e (f d)) by now rewrite length_map.
  apply map_nth.
Qed.

Lemma nth_map_seq {B : Type} (f : nat -> B) (n len : nat) (e : B) :
  (n < len)%nat -> nth n (map f (seq 0 len)) e = f n.
Proof.
  intros Hn. rewrite (nth_map_in f _ n O) by now rewrite length_seq.
  now rewrite seq_nth.
Qed.

Lemma wf_row_length (g : grid) (y : nat) :
  wf_grid g -> (y < height g)%nat -> length (nth y g []) = width g.
Proof.
  intros [Hrect _] Hy.
  rewrite Forall_forall in Hrect. apply Hrect, nth_In, Hy.
Qed.

Lemma wf_getpixel_range (g : grid) (x y : nat) :
  wf_grid g -> (x < width g)%nat -> (y < height g)%nat ->
  0 <= getpixel g x y <= 255.
Proof.
  intros Hwf Hx Hy. pose proof (wf_row_length g y Hwf Hy) as Hlen.
  destruct Hwf as [_ Hrange]. unfold getpixel.
  rewrite Forall_forall in Hrange.
  specialize (Hrange (nth y g []) (nth_In _ _ Hy)).
  rewrite Forall_forall in Hrange. apply Hrange, nth_In. lia.
Qed.

(** * posterize *)

Lemma posterize_getpixel (src : grid) (threshold : Z) (x y : nat) :
  (y < height src)%nat -> (x < length (nth y src []))%nat ->
  getpixel (posterize src threshold) x y =
  if threshold <? getpixel src x y then 255 else 0.
Proof.
  intros Hy Hx. unfold getpixel, posterize.
  rewrite (nth_map_in _ src y []) by exact Hy.
  rewrite (nth_map_in _ _ x 0) by exact Hx.
  rewrite Z.gtb_ltb. unfold astype_uint8.
  now destruct (threshold <? nth x (nth y src []) 0).
Qed.

Lemma posterize_constant (src : grid) (threshold v : Z) :
  (forall p, 0 <= p <= 255 -> astype_uint8 (if p >? threshold then 255 else 0) = v) ->
  Forall (Forall (fun p => 0 <= p <= 255)) src ->
  posterize src threshold = map (map (fun _ => v)) src.
Proof.
  intros Hv Hrange. unfold posterize.
  apply map_ext_in; intros row Hrow. apply map_ext_in; intros p Hp.
  apply Hv. rewrite Forall_forall in Hrange.
  specialize (Hrange row Hrow). rewrite Forall_forall in Hrange. now apply Hrange.
Qed.

(** C3: with a threshold in 0..255, posterize sends every pixel to 255
    when its sample is strictly above the threshold and to 0 otherwise; a
    sample equal to the threshold gives 0, one above it by one gives 255. *)
Theorem posterize_strict_threshold (src : grid) (threshold : Z) :
  wf_grid src -> 0 <= threshold <= 255 ->
  forall x y : nat, (x < width src)%nat -> (y < height src)%nat ->
    getpixel (posterize src threshold) x y =
      (if threshold <? getpixel src x y then 255 else 0) /\
    (getpixel src x y = threshold -> getpixel (posterize src threshold) x y = 0) /\
    (getpixel src x y = threshold + 1 -> getpixel (posterize src threshold) x y = 255).
Proof.
  intros Hwf _ x y Hx Hy.
  assert (Hpix : getpixel (posterize src threshold) x y =
                 if threshold <? getpixel src x y then 255 else 0).
  { apply posterize_getpixel; [exact Hy|]. now rewrite wf_row_length. }
  rewrite Hpix. split; [reflexivity|]. split; intros ->.
  - now rewrite Z.ltb_irrefl.
  - replace (threshold <? threshold + 1) with true; [reflexivity|].
    symmetry; apply Z.ltb_lt; lia.
Qed.

(** C7: posterize is a total function of the image and of an arbitrary
    integer threshold: no threshold makes it raise, every pixel is 255
    when strictly above the threshold and 0 otherwise, a threshold of 255
    or more gives an all-black image and a negative one an all-white
    image. *)
Theorem posterize_any_threshold (src : grid) (threshold : Z) :
  wf_grid src ->
  (exists out : grid, posterize src threshold = out /\
     height out = height src /\
     forall x y : nat, (x < width src)%nat -> (y < height src)%nat ->
       getpixel out x y = if threshold <? getpixel src x y then 255 else 0) /\
  (255 <= threshold -> posterize src threshold = map (map (fun _ => 0)) src) /\
  (threshold < 0 -> posterize src threshold = map (map (fun _ => 255)) src).
Proof.
  intros Hwf. split; [|split].
  - exists (posterize src threshold). split; [reflexivity|]. split.
    + unfold height, posterize. apply length_map.
    + intros x y Hx Hy. apply posterize_getpixel; [exact Hy|].
      now rewrite wf_row_length.
  - intros Ht. apply posterize_constant; [|apply Hwf].
    intros p Hp. rewrite Z.gtb_ltb.
    destruct (Z.ltb_spec threshold p); [lia|reflexivity].
  - intros Ht. apply posterize_constant; [|apply Hwf].
    intros p Hp. rewrite Z.gtb_ltb.
    destruct (Z.ltb_spec threshold p); [reflexivity|lia].
Qed.

(** * bayer_dither *)

Section Dither.

Context {F : Type} {num : Number F}.

Lemma getitem_img_array (img : grid) (x y : nat) :
  getitem (map (map of_int) img) y x = of_int (getpixel img x y).
Proof.
  unfold getitem, getpixel.
  change (@nil F) with (map (@of_int F num) []).
  now rewrite !map_nth.
Qed.

Lemma bayer_dither_getpixel (img : grid) (x y : nat) :
  (x < width img)%nat -> (y < height img)%nat ->
  getpixel (bayer_dither img) x y =
  if ngtb (of_int (getpixel img x y)) (getitem bayer_matrix (y mod 8) (x mod 8))
  then 255 else 0.
Proof.
  intros Hx Hy. unfold getpixel at 1. unfold bayer_dither.
  rewrite nth_map_seq by exact Hy.
  rewrite nth_map_seq by exact Hx.
  now rewrite getitem_img_array.
Qed.

Lemma bayer_dither_size (img : grid) :
  height (bayer_dither img) = height img /\
  Forall (fun row => length row = width img) (bayer_dither img).
Proof.
  unfold bayer_dither, height. split.
  - now rewrite length_map, length_seq.
  - apply Forall_map, Forall_forall. intros y _.
    now rewrite length_map, length_seq.
Qed.

Lemma bayer_dither_binary (img : grid) : binary (bayer_dither img).
Proof.
  unfold binary, bayer_dither.
  apply Forall_map, Forall_forall. intros y _.
  apply Forall_map, Forall_forall. intros x _.
  destruct (ngtb _ _); [now right | now left].
Qed.

End Dither.

Lemma threshold_agrees_all :
  forallb (fun i => forallb (fun j => forallb (fun p =>
    threshold_agrees i j (Z.of_nat p)) (seq 0 256)) (seq 0 8)) (seq 0 8) = true.
Proof. vm_compute. reflexivity. Qed.

Lemma float64_threshold (i j : nat) (p : Z) :
  (i < 8)%nat -> (j < 8)%nat -> 0 <= p <= 255 ->
  ngtb (float_of_Z p) (getitem (F := float) bayer_matrix i j) =
  (255 * nth j (nth i bayer_raw []) 0 <? 64 * p).
Proof.
  intros Hi Hj Hp. pose proof threshold_agrees_all as H.
  assert (Hin : forall n len : nat, (n < len)%nat -> In n (seq 0 len))
    by (intros; apply in_seq; lia).
  pose proof (proj1 (forallb_forall _ _) H i (Hin _ _ Hi)) as H1.
  pose proof (proj1 (forallb_forall _ _) H1 j (Hin _ _ Hj)) as H2.
  assert (Hp' : (Z.to_nat p < 256)%nat) by lia.
  pose proof (proj1 (forallb_forall _ _) H2 (Z.to_nat p) (Hin _ _ Hp')) as H3.
  cbv beta in H3. rewrite Z2Nat.id in H3 by lia.
  apply Bool.eqb_prop, H3.
Qed.

Lemma spec_threshold_lt (x y : nat) (p : Z) :
  (spec_threshold x y < inject_Z p)%Q <->
  255 * nth (x mod 8) (nth (y mod 8) spec_matrix []) 0 < 64 * p.
Proof.
  unfold spec_threshold.
  generalize (nth (x mod 8) (nth (y mod 8) spec_matrix []) 0). intros v.
  unfold Qlt. cbn -[Z.mul]. lia.
Qed.

(** C2: for every pixel the dithered sample is 255 when the source
    sample is strictly above [matrix[y mod 8][x mod 8] * 255 / 64] and 0
    otherwise, a sample equal to its threshold going to black; the
    matrix of the code is the matrix of section 6. *)
Theorem bayer_dither_threshold (src : grid) :
  wf_grid src ->
  bayer_raw = spec_matrix /\
  forall x y : nat, (x < width src)%nat -> (y < height src)%nat ->
    getpixel (bayer_dither (F := float) src) x y =
      (if Qlt_le_dec (spec_threshold x y) (inject_Z (getpixel src x y))
       then 255 else 0) /\
    ((inject_Z (getpixel src x y) == spec_threshold x y)%Q ->
     getpixel (bayer_dither (F := float) src) x y = 0).
Proof.
  intros Hwf. split; [reflexivity|]. intros x y Hx Hy.
  pose proof (wf_getpixel_range src x y Hwf Hx Hy) as Hp.
  assert (Hpix : getpixel (bayer_dither (F := float) src) x y =
                 if Qlt_le_dec (spec_threshold x y) (inject_Z (getpixel src x y))
                 then 255 else 0).
  { rewrite bayer_dither_getpixel by assumption.
    change (@of_int float float64) with float_of_Z.
    rewrite float64_threshold
      by (try apply Nat.mod_upper_bound; try assumption; lia).
    change bayer_raw with spec_matrix.
    destruct (Qlt_le_dec _ _) as [Hlt|Hle].
    - apply spec_threshold_lt in Hlt.
      destruct (Z.ltb_spec (255 * nth (x mod 8) (nth (y mod 8) spec_matrix []) 0)
                           (64 * getpixel src x y)); [reflexivity|lia].
    - destruct (Z.ltb_spec (255 * nth (x mod 8) (nth (y mod 8) spec_matrix []) 0)
                           (64 * getpixel src x y)) as [Hlt|_]; [|reflexivity].
      apply spec_threshold_lt in Hlt. exfalso. revert Hle Hlt. apply Qle_not_lt. }
  split; [exact Hpix|]. intros Heq. rewrite Hpix.
  destruct (Qlt_le_dec _ _) as [Hlt|_]; [|reflexivity].
  rewrite Heq in Hlt. exfalso. revert Hlt. apply Qlt_irrefl.
Qed.

(** * Ranges, slices and cells *)

Lemma in_zrange (lo hi v : Z) : In v (zrange lo hi) <-> lo <= v < hi.
Proof.
  unfold zrange. rewrite in_map_iff. split.
  - intros [i [<- Hi]]. apply in_seq in Hi. lia.
  - intros Hv. exists (Z.to_nat (v - lo)). split; [lia|]. apply in_seq. lia.
Qed.

Lemma range_length_ceil (n d : Z) :
  0 < d -> 0 <= n -> range_length 0 n d = ceil_div n d.
Proof.
  intros Hd Hn. unfold range_length, ceil_div.
  destruct (Z.ltb_spec 0 d) as [_|]; [|lia].
  destruct (Z.ltb_spec 0 n) as [Hpos|Hzero].
  - replace (n + d - 1) with (n - 1 - 0 + 1 * d) by lia.
    rewrite Z.div_add by lia. lia.
  - replace n with 0 by lia. rewrite Z.div_small; lia.
Qed.

Lemma range_positive (n d : Z) :
  0 < d -> 0 <= n ->
  range 0 n d = Ok (map (fun i => i * d) (zrange 0 (ceil_div n d))).
Proof.
  intros Hd Hn. unfold range.
  destruct (Z.eqb_spec d 0) as [|_]; [lia|].
  rewrite range_length_ceil by assumption.
  unfold zrange. rewrite map_map, Z.sub_0_r. reflexivity.
Qed.


Lemma ceil_div_bound (n d i : Z) :
  0 < d -> 0 <= n -> (0 <= i < ceil_div n d <-> 0 <= i /\ i * d < n).
Proof.
  intros Hd Hn. unfold ceil_div.
  pose proof (Z.div_mod (n + d - 1) d ltac:(lia)) as Hdm.
  pose proof (Z.mod_pos_bound (n + d - 1) d Hd) as Hmod.
  split; intros H; (split; [lia|]); nia.
Qed.

Lemma in_spec_cells (w h d : Z) (c : Z * Z) :
  0 < d -> 0 <= w -> 0 <= h ->
  (In c (spec_cells w h d) <->
   exists i j, 0 <= i /\ 0 <= j /\ c = (i * d, j * d) /\ i * d < w /\ j * d < h).
Proof.
  intros Hd Hw Hh. unfold spec_cells. rewrite in_flat_map. split.
  - intros [j [Hj Hc]]. apply in_map_iff in Hc as [i [<- Hi]].
    apply in_zrange in Hi, Hj.
    apply ceil_div_bound in Hi, Hj; try assumption.
    exists i, j. intuition.
  - intros [i [j (Hi & Hj & -> & Hiw & Hjh)]].
    exists j. split.
    + apply in_zrange, ceil_div_bound; auto.
    + apply in_map_iff. exists i. split; [reflexivity|].
      apply in_zrange, ceil_div_bound; auto.
Qed.

Lemma in_spec_cell_pixels (w h d : Z) (c p : Z * Z) :
  In p (spec_cell_pixels w h d c) <-> in_cell w h d c (fst p) (snd p).
Proof.
  unfold spec_cell_pixels, in_cell. rewrite in_flat_map. split.
  - intros [py [Hpy Hp]]. apply in_map_iff in Hp as [px [<- Hpx]].
    apply in_zrange in Hpx, Hpy. simpl. split; assumption.
  - intros [Hx Hy]. exists (snd p). split; [now apply in_zrange|].
    apply in_map_iff. exists (fst p). split; [now destruct p|now apply in_zrange].
Qed.

(** Every pixel lies in the cell whose corner is its coordinates rounded
    down to multiples of [d], and in no other. *)
Lemma cells_partition (w h d px py : Z) :
  0 < d -> 0 <= px < w -> 0 <= py < h ->
  exists c, In c (spec_cells w h d) /\ in_cell w h d c px py /\
    forall c', In c' (spec_cells w h d) -> in_cell w h d c' px py -> c' = c.
Proof.
  intros Hd Hpx Hpy.
  pose proof (Z.div_mod px d ltac:(lia)) as Hdx.
  pose proof (Z.mod_pos_bound px d Hd) as Hmx.
  pose proof (Z.div_mod py d ltac:(lia)) as Hdy.
  pose proof (Z.mod_pos_bound py d Hd) as Hmy.
  assert (Hqx : 0 <= px / d) by (apply Z.div_pos; lia).
  assert (Hqy : 0 <= py / d) by (apply Z.div_pos; lia).
  exists (px / d * d, py / d * d). split; [|split].
  - apply in_spec_cells; try lia.
    exists (px / d), (py / d). repeat split; lia.
  - unfold in_cell; simpl. lia.
  - intros c' Hc' [Hx Hy]. apply in_spec_cells in Hc'; try lia.
    destruct Hc' as [i [j (Hi & Hj & -> & _ & _)]]. simpl in Hx, Hy.
    assert (i = px / d) by nia. assert (j = py / d) by nia. now subst.
Qed.

Lemma skipn_cons_nth {A : Type} (l : list A) (k : nat) (d : A) :
  (k < length l)%nat -> skipn k l = nth k l d :: skipn (S k) l.
Proof.
  revert k; induction l as [|a l IH]; intros k Hk; simpl in Hk; [lia|].
  destruct k as [|k]; [reflexivity|].
  change (skipn (S k) (a :: l)) with (skipn k l).
  change (skipn (S (S k)) (a :: l)) with (skipn (S k) l).
  change (nth (S k) (a :: l) d) with (nth k l d).
  apply IH. lia.
Qed.

Lemma firstn_skipn_nth {A : Type} (l : list A) (d : A) (n k : nat) :
  (k + n <= length l)%nat ->
  firstn n (skipn k l) = map (fun i => nth (k + i) l d) (seq 0 n).
Proof.
  revert k; induction n as [|n IH]; intros k Hk; [reflexivity|].
  rewrite (skipn_cons_nth l k d) by lia.
  cbn [firstn seq map]. rewrite Nat.add_0_r. f_equal.
  rewrite IH by lia. rewrite <- seq_shift, map_map.
  apply map_ext. intros i. f_equal. lia.
Qed.

Lemma slice_nth {A : Type} (l : list A) (d : A) (lo hi : Z) :
  0 <= lo <= hi -> hi <= Z.of_nat (length l) ->
  slice lo hi l = map (fun i => nth (Z.to_nat i) l d) (zrange lo hi).
Proof.
  intros Hlo Hhi. unfold slice, zrange.
  rewrite (firstn_skipn_nth l d) by lia.
  rewrite map_map. apply map_ext. intros i. f_equal. lia.
Qed.

Lemma concat_map_map {A B C : Type} (g : A -> B -> C) (xs : list A) (ys : list B) :
  concat (map (fun y => map (fun x => g x y) xs) ys) =
  map (fun p => g (fst p) (snd p)) (flat_map (fun y => map (fun x => (x, y)) xs) ys).
Proof.
  induction ys as [|y ys IH]; [reflexivity|].
  cbn [map concat flat_map]. rewrite map_app, map_map, IH. reflexivity.
Qed.

Lemma crop_cell_pixels (img : grid) (d : Z) (c : Z * Z) :
  wf_grid img -> 0 < d ->
  0 <= fst c < Z.of_nat (width img) -> 0 <= snd c < Z.of_nat (height img) ->
  concat (crop img (fst c, snd c,
                    Z.min (fst c + d) (Z.of_nat (width img)),
                    Z.min (snd c + d) (Z.of_nat (height img)))) =
  map (fun p => getpixel img (Z.to_nat (fst p)) (Z.to_nat (snd p)))
      (spec_cell_pixels (Z.of_nat (width img)) (Z.of_nat (height img)) d c).
Proof.
  intros Hwf Hd Hx Hy. destruct c as [x y]; simpl in *.
  unfold crop, spec_cell_pixels; simpl.
  set (x1 := Z.min (x + d) (Z.of_nat (width img))).
  set (y1 := Z.min (y + d) (Z.of_nat (height img))).
  rewrite (slice_nth img [] y y1) by (unfold y1, height in *; lia).
  rewrite map_map.
  rewrite <- (concat_map_map (fun px py => getpixel img (Z.to_nat px) (Z.to_nat py))).
  f_equal. apply map_ext_in. intros py Hpy. apply in_zrange in Hpy.
  apply slice_nth; [unfold x1; lia|].
  rewrite wf_row_length; [unfold x1; lia|assumption|unfold y1 in Hpy; lia].
Qed.

(** * halftone *)

Lemma for_each_pure {A S : Type} (f : S -> A -> S) (xs : list A) (s : S) :
  for_each xs (fun s x => Ok (f s x)) s = Ok (fold_left f xs s).
Proof.
  revert s; induction xs as [|x xs IH]; intros s; [reflexivity|].
  simpl. apply IH.
Qed.

Lemma fold_left_row {A B S : Type} (f : S -> A -> B -> S) (xs : list A) (y : B) (s : S) :
  fold_left (fun s c => f s (fst c) (snd c)) (map (fun x => (x, y)) xs) s =
  fold_left (fun s x => f s x y) xs s.
Proof.
  revert s; induction xs as [|x xs IH]; intros s; [reflexivity|]. simpl. apply IH.
Qed.

Lemma for_each_nested {A B S : Type} (f : S -> A -> B -> S)
  (xs : list A) (ys : list B) (s : S) :
  for_each ys (fun s y => for_each xs (fun s x => Ok (f s x y)) s) s =
  Ok (fold_left (fun s c => f s (fst c) (snd c))
        (flat_map (fun y => map (fun x => (x, y)) xs) ys) s).
Proof.
  revert s; induction ys as [|y ys IH]; intros s; [reflexivity|].
  cbn [for_each bind flat_map]. rewrite for_each_pure. cbn [bind].
  rewrite IH, fold_left_app, fold_left_row. reflexivity.
Qed.

Lemma spec_cells_ranges (w h d : Z) :
  spec_cells w h d =
  flat_map (fun y => map (fun x => (x, y)) (map (fun i => i * d) (zrange 0 (ceil_div w d))))
           (map (fun j => j * d) (zrange 0 (ceil_div h d))).
Proof.
  unfold spec_cells. generalize (zrange 0 (ceil_div h d)) as js.
  induction js as [|j js IH]; [reflexivity|].
  cbn [flat_map map]. rewrite IH, map_map. reflexivity.
Qed.

Section Halftone.

Context {F : Type} {num : Number F}.
Variable covers : box F -> nat -> nat -> bool.

Lemma halftone_cell_calls (img : grid) (dot_size scale : Z) (draw : ImageDraw F)
  (c : Z * Z) :
  halftone_cell covers img dot_size scale
    (Z.of_nat (width img)) (Z.of_nat (height img)) draw (fst c) (snd c) =
  {| im := paint covers (cell_calls img dot_size scale c) (im draw);
     calls := calls draw ++ cell_calls img dot_size scale c |}.
Proof.
  unfold halftone_cell, cell_calls.
  destruct (ngtb _ _).
  - reflexivity.
  - destruct draw; simpl. now rewrite app_nil_r.
Qed.

Lemma halftone_cells_fold (img : grid) (dot_size scale : Z) (cells : list (Z * Z))
  (draw : ImageDraw F) :
  fold_left (fun st c =>
      halftone_cell covers img dot_size scale
        (Z.of_nat (width img)) (Z.of_nat (height img)) st (fst c) (snd c))
    cells draw =
  {| im := paint covers (flat_map (cell_calls img dot_size scale) cells) (im draw);
     calls := calls draw ++ flat_map (cell_calls img dot_size scale) cells |}.
Proof.
  revert draw; induction cells as [|c cells IH]; intros draw.
  - destruct draw; simpl. now rewrite app_nil_r.
  - cbn [fold_left flat_map]. rewrite IH, halftone_cell_calls. cbn [im calls].
    unfold paint. now rewrite fold_left_app, app_assoc.
Qed.

(** With a positive dot size and a scale that is not negative, the two
    loops visit the cells in order and the result is the blank canvas
    with the dots of all cells painted on. *)
Lemma halftone_positive (img : grid) (dot_size scale : Z) :
  0 < dot_size -> 0 <= scale ->
  let w := Z.of_nat (width img) in
  let h := Z.of_nat (height img) in
  let dots := flat_map (cell_calls img dot_size scale) (spec_cells w h dot_size) in
  halftone covers img dot_size scale =
  Ok {| im := paint covers dots (blank (w * scale) (h * scale)); calls := dots |}.
Proof.
  intros Hd Hs w h dots. unfold halftone, Image_new. fold w h.
  destruct (Z.ltb_spec (w * scale) 0) as [|_]; [nia|].
  destruct (Z.ltb_spec (h * scale) 0) as [|_]; [nia|].
  cbn [orb bind].
  rewrite !range_positive by lia. cbn [bind].
  rewrite (for_each_nested
    (fun st x y => halftone_cell covers img dot_size scale w h st x y)).
  rewrite <- spec_cells_ranges. unfold w, h at 1 2.
  rewrite halftone_cells_fold. reflexivity.
Qed.



(** The mean of the cropped region is the mean of the samples of the
    clipped cell. *)
Lemma np_mean_crop (img : grid) (d : Z) (c : Z * Z) :
  wf_grid img -> 0 < d ->
  In c (spec_cells (Z.of_nat (width img)) (Z.of_nat (height img)) d) ->
  np_mean (crop img (fst c, snd c,
                     Z.min (fst c + d) (Z.of_nat (width img)),
                     Z.min (snd c + d) (Z.of_nat (height img)))) =
  spec_avg img d c.
Proof.
  intros Hwf Hd Hc. apply in_spec_cells in Hc; try lia.
  destruct Hc as [i [j (Hi & Hj & -> & Hiw & Hjh)]].
  unfold np_mean, spec_avg.
  rewrite crop_cell_pixels by (simpl; try assumption; nia).
  now rewrite length_map.
Qed.

Lemma cell_calls_spec (img : grid) (d s : Z) (c : Z * Z) :
  wf_grid img -> 0 < d ->
  In c (spec_cells (Z.of_nat (width img)) (Z.of_nat (height img)) d) ->
  cell_calls img d s c = spec_dot img d s c.
Proof.
  intros Hwf Hd Hc. unfold cell_calls, spec_dot, dot_radius, center.
  rewrite np_mean_crop by assumption. now destruct c.
Qed.

Lemma flat_map_ext_in {A B : Type} (f g : A -> list B) (l : list A) :
  (forall a, In a l -> f a = g a) -> flat_map f l = flat_map g l.
Proof.
  induction l as [|a l IH]; intros H; [reflexivity|].
  cbn [flat_map]. rewrite (H a) by now left.
  rewrite IH; [reflexivity|]. intros b Hb. apply H. now right.
Qed.

End Halftone.

(** * Sizes and sample values *)

Lemma blank_size (w h : Z) : 0 <= w -> 0 <= h -> has_size (blank w h) w h.
Proof.
  intros Hw Hh. unfold has_size, blank. split.
  - rewrite repeat_length. lia.
  - apply Forall_forall. intros row Hrow. apply repeat_spec in Hrow. subst row.
    rewrite repeat_length. lia.
Qed.

Lemma blank_binary (w h : Z) : binary (blank w h).
Proof.
  unfold binary, blank. apply Forall_forall. intros row Hrow.
  apply repeat_spec in Hrow. subst row.
  apply Forall_forall. intros v Hv. apply repeat_spec in Hv. now right.
Qed.

Lemma posterize_binary (src : grid) (threshold : Z) : binary (posterize src threshold).
Proof.
  unfold binary, posterize.
  apply Forall_map, Forall_forall. intros row _.
  apply Forall_map, Forall_forall. intros p _.
  destruct (p >? threshold); [now right | now left].
Qed.

Lemma posterize_size (src : grid) (threshold : Z) :
  wf_grid src ->
  has_size (posterize src threshold) (Z.of_nat (width src)) (Z.of_nat (height src)).
Proof.
  intros [Hrect _]. unfold has_size, posterize, height. split.
  - now rewrite length_map.
  - apply Forall_map. revert Hrect. apply Forall_impl. intros row Hrow.
    now rewrite length_map, Hrow.
Qed.

Section Canvas.

Context {F : Type} {num : Number F}.
Variable covers : box F -> nat -> nat -> bool.

Lemma fill_ellipse_size (xy : box F) (fill : Z) (g : grid) (w h : Z) :
  has_size g w h -> has_size (fill_ellipse covers xy fill g) w h.
Proof.
  intros [Hh Hw]. unfold has_size, fill_ellipse, mapi. split.
  - now rewrite mapi_from_length.
  - revert Hw. apply mapi_from_Forall. intros y row Hrow.
    now rewrite mapi_from_length.
Qed.

Lemma fill_ellipse_binary (xy : box F) (g : grid) :
  binary g -> binary (fill_ellipse covers xy 0 g).
Proof.
  unfold binary, fill_ellipse, mapi. apply mapi_from_Forall. intros y row.
  apply mapi_from_Forall. intros x old Hold.
  destruct (covers xy x y); [now left | exact Hold].
Qed.

Lemma paint_size (boxes : list (box F)) (g : grid) (w h : Z) :
  has_size g w h -> has_size (paint covers boxes g) w h.
Proof.
  revert g; induction boxes as [|xy boxes IH]; intros g Hg; [exact Hg|].
  apply IH, fill_ellipse_size, Hg.
Qed.

Lemma paint_binary (boxes : list (box F)) (g : grid) :
  binary g -> binary (paint covers boxes g).
Proof.
  revert g; induction boxes as [|xy boxes IH]; intros g Hg; [exact Hg|].
  apply IH, fill_ellipse_binary, Hg.
Qed.

End Canvas.

(** * The claims about halftone, sizes and sample values *)

(** C1: with a dot size and a scale of at least 1, in binary64
    arithmetic, halftone tiles the source with cells of side [dot_size]
    from (0,0), the last cell of each row and column clipped to the
    image: every pixel lies in exactly one cell.  The brightness it
    computes for a cell is the arithmetic mean over exactly the pixels of
    the clipped cell; and its calls to [ellipse] are, cell by cell in
    row-major order, what [spec_dot] words: with the radius
    [((255 - avg) / 255) * (dot_size * scale / 2)], the circle of that
    radius around [((x + dot_size/2) * scale, (y + dot_size/2) * scale)]
    when the radius exceeds 0.5 and no call otherwise.  The output is the
    white canvas with these circles filled in black.  The integers
    converted to floats are kept where binary64 is exact:
    [dot_size * scale] and the sum of all samples are below 2^53. *)
Theorem halftone_renders_cells
  (covers : box float -> nat -> nat -> bool) (src : grid) (dot_size scale : Z) :
  wf_grid src -> 1 <= dot_size -> 1 <= scale ->
  exactly_representable (dot_size * scale) ->
  exactly_representable (255 * (Z.of_nat (width src) * Z.of_nat (height src))) ->
  let w := Z.of_nat (width src) in
  let h := Z.of_nat (height src) in
  let cells := spec_cells w h dot_size in
  (forall px py, 0 <= px < w -> 0 <= py < h ->
     exists c, In c cells /\ in_cell w h dot_size c px py /\
       forall c', In c' cells -> in_cell w h dot_size c' px py -> c' = c) /\
  (forall c, In c cells ->
     exists i j, 0 <= i /\ 0 <= j /\ c = (i * dot_size, j * dot_size) /\
       fst c < w /\ snd c < h) /\
  (forall c p, In p (spec_cell_pixels w h dot_size c) <->
     in_cell w h dot_size c (fst p) (snd p)) /\
  (forall c, In c cells ->
     np_mean (crop src (fst c, snd c,
                        Z.min (fst c + dot_size) w, Z.min (snd c + dot_size) h)) =
     spec_avg (F := float) src dot_size c) /\
  exists draw,
    halftone covers src dot_size scale = Ok draw /\
    calls draw = flat_map (spec_dot src dot_size scale) cells /\
    im draw = paint covers (calls draw) (blank (w * scale) (h * scale)).
Proof.
  intros Hwf Hd Hs _ _ w h cells.
  split; [|split; [|split; [|split]]].
  - intros px py Hpx Hpy. apply cells_partition; [lia|assumption..].
  - intros c Hc. apply in_spec_cells in Hc; try lia.
    destruct Hc as [i [j (Hi & Hj & -> & Hiw & Hjh)]].
    exists i, j. simpl. auto.
  - intros c p. apply in_spec_cell_pixels.
  - intros c Hc. apply np_mean_crop; [assumption|lia|assumption].
  - eexists. split; [apply halftone_positive; lia|].
    cbn [calls im]. fold w h. split; [|reflexivity].
    apply flat_map_ext_in. intros c Hc.
    apply cell_calls_spec; [assumption|lia|assumption].
Qed.

(** C4: dither and posterize return an image of the size of the source;
    halftone with a dot size and a scale of at least 1, and
    [dot_size * scale] below 2^53, returns one of [width * scale] by
    [height * scale] samples. *)
Theorem output_sizes {F : Type} {num : Number F}
  (covers : box F -> nat -> nat -> bool) (src : grid) (threshold dot_size scale : Z) :
  wf_grid src -> 1 <= dot_size -> 1 <= scale ->
  exactly_representable (dot_size * scale) ->
  let w := Z.of_nat (width src) in
  let h := Z.of_nat (height src) in
  has_size (bayer_dither (F := F) src) w h /\
  has_size (posterize src threshold) w h /\
  exists draw,
    halftone covers src dot_size scale = Ok draw /\
    has_size (im draw) (w * scale) (h * scale).
Proof.
  intros Hwf Hd Hs _ w h. split; [|split].
  - destruct (bayer_dither_size (F := F) src) as [Hh Hw]. split.
    + unfold height in Hh. unfold h, height. now rewrite Hh.
    + revert Hw. apply Forall_impl. intros row ->. reflexivity.
  - apply posterize_size, Hwf.
  - eexists. split; [apply halftone_positive; lia|].
    cbn [im]. apply paint_size, blank_size; nia.
Qed.

(** C5: every sample of a dithered image and of a posterized image is 0
    or 255. *)
Theorem dither_posterize_binary {F : Type} {num : Number F}
  (src : grid) (threshold : Z) :
  binary (bayer_dither (F := F) src) /\ binary (posterize src threshold).
Proof.
  split; [apply bayer_dither_binary | apply posterize_binary].
Qed.

(** C10: with a dot size and a scale of at least 1, and
    [dot_size * scale] below 2^53, every sample of the halftone output is
    0 or 255: the canvas starts all 255 and an ellipse only writes 0. *)
Theorem halftone_binary {F : Type} {num : Number F}
  (covers : box F -> nat -> nat -> bool) (src : grid) (dot_size scale : Z) :
  1 <= dot_size -> 1 <= scale ->
  exactly_representable (dot_size * scale) ->
  exists draw,
    halftone covers src dot_size scale = Ok draw /\ binary (im draw).
Proof.
  intros Hd Hs _. eexists. split; [apply halftone_positive; lia|].
  cbn [im]. apply paint_binary, blank_binary.
Qed.


(** * Rounding in binary64

    [SpecFloat] gives the operations of the primitive floats as
    functions on mantissas and exponents.  This part shows that, short
    of underflow and overflow, subtraction, division and multiplication
    of non-negative numbers return the float nearest to the real
    result, ties to even, and that such rounding is monotone. *)

(** ** Powers of two *)

Lemma bpow_gt_0 (e : Z) : (0 < bpow e)%R.
Proof. apply powerRZ_lt. lra. Qed.

Lemma bpow_add (a b : Z) : bpow (a + b) = (bpow a * bpow b)%R.
Proof. apply powerRZ_add. lra. Qed.

Lemma bpow_IZR (k : Z) : 0 <= k -> bpow k = IZR (2 ^ k).
Proof.
  intros Hk. unfold bpow. destruct k as [|p|p]; [reflexivity| |lia].
  change (2 ^ Z.pos p) with (Z.pow_pos 2 p). now rewrite Zpower_pos_powerRZ.
Qed.

Lemma bpow_ge_1 (k : Z) : 0 <= k -> (1 <= bpow k)%R.
Proof.
  intros Hk. rewrite bpow_IZR by exact Hk. apply IZR_le.
  pose proof (Z.pow_pos_nonneg 2 k ltac:(lia) Hk). lia.
Qed.

Lemma bpow_ge_2 (k : Z) : 1 <= k -> (2 <= bpow k)%R.
Proof.
  intros Hk. rewrite bpow_IZR by lia. apply IZR_le.
  replace k with (1 + (k - 1)) by lia. rewrite Z.pow_add_r by lia.
  pose proof (Z.pow_pos_nonneg 2 (k - 1) ltac:(lia) ltac:(lia)). lia.
Qed.

Lemma bpow_le (a b : Z) : a <= b -> (bpow a <= bpow b)%R.
Proof.
  intros Hab. replace b with (a + (b - a)) by lia. rewrite bpow_add.
  pose proof (bpow_gt_0 a). pose proof (bpow_ge_1 (b - a) ltac:(lia)). nra.
Qed.

Lemma bpow_lt (a b : Z) : a < b -> (bpow a < bpow b)%R.
Proof.
  intros Hab. replace b with (a + (b - a)) by lia. rewrite bpow_add.
  pose proof (bpow_gt_0 a). pose proof (bpow_ge_2 (b - a) ltac:(lia)). nra.
Qed.

Lemma bpow_succ (a : Z) : bpow (a + 1) = (2 * bpow a)%R.
Proof. rewrite bpow_add. unfold bpow at 2. simpl. lra. Qed.

Lemma bpow_opp (a : Z) : bpow (- a) = (/ bpow a)%R.
Proof. apply powerRZ_neg'. Qed.

(** ** Digits *)

Lemma digits2_size (p : positive) : digits2_pos p = Pos.size p.
Proof. induction p; simpl; now rewrite ?IHp. Qed.

Lemma digits2_bounds (p : positive) :
  2 ^ (Z.pos (digits2_pos p) - 1) <= Z.pos p < 2 ^ Z.pos (digits2_pos p).
Proof.
  rewrite digits2_size.
  pose proof (Pos.size_gt p) as Hgt. pose proof (Pos.size_le p) as Hle.
  apply Pos2Z.pos_lt_pos in Hgt. apply Pos2Z.pos_le_pos in Hle.
  rewrite Pos2Z.inj_pow in Hgt, Hle.
  split; [|exact Hgt].
  replace (Z.pos (Pos.size p)) with (1 + (Z.pos (Pos.size p) - 1)) in Hle by lia.
  rewrite Z.pow_add_r in Hle by lia. rewrite Z.pow_1_r in Hle.
  lia.
Qed.

Lemma Zdigits2_nonneg (m : Z) : 0 <= Zdigits2 m.
Proof. destruct m; simpl; lia. Qed.

Lemma Zdigits2_bounds (m : Z) :
  0 < m -> 2 ^ (Zdigits2 m - 1) <= m < 2 ^ Zdigits2 m.
Proof. destruct m as [|p|p]; try lia. intros _. apply digits2_bounds. Qed.

Lemma Zdigits2_lt_pow (m k : Z) : 0 <= m -> 0 <= k -> m < 2 ^ k -> Zdigits2 m <= k.
Proof.
  intros Hm Hk Hlt. destruct (Z.eq_dec m 0) as [->|Hne]; [simpl; lia|].
  pose proof (Zdigits2_bounds m ltac:(lia)) as [Hlo _].
  destruct (Z_le_gt_dec (Zdigits2 m) k) as [|Hgt]; [assumption|exfalso].
  assert (2 ^ k <= 2 ^ (Zdigits2 m - 1)) by (apply Z.pow_le_mono_r; lia). lia.
Qed.

Lemma Zdigits2_ge_pow (m k : Z) : 0 <= k -> 2 ^ k <= m -> k + 1 <= Zdigits2 m.
Proof.
  intros Hk Hle.
  assert (0 < m) by (pose proof (Z.pow_pos_nonneg 2 k ltac:(lia) Hk); lia).
  pose proof (Zdigits2_bounds m ltac:(lia)) as [_ Hhi].
  destruct (Z_le_gt_dec (k + 1) (Zdigits2 m)) as [|Hgt]; [assumption|exfalso].
  assert (2 ^ Zdigits2 m <= 2 ^ k)
    by (apply Z.pow_le_mono_r; pose proof (Zdigits2_nonneg m); lia). lia.
Qed.

(** Real bounds from the number of digits. *)
Lemma IZR_digits_bounds (m : Z) :
  0 < m -> (bpow (Zdigits2 m - 1) <= IZR m < bpow (Zdigits2 m))%R.
Proof.
  intros Hm. pose proof (Zdigits2_bounds m Hm) as [Hlo Hhi].
  assert (1 <= Zdigits2 m).
  { destruct m; try lia. simpl. lia. }
  rewrite !bpow_IZR by lia. split; [apply IZR_le | apply IZR_lt]; assumption.
Qed.

Lemma bpow_le_inv (a b : Z) : (bpow a <= bpow b)%R -> a <= b.
Proof.
  intros H. destruct (Z_le_gt_dec a b) as [|Hgt]; [assumption|exfalso].
  pose proof (bpow_lt b a ltac:(lia)). lra.
Qed.

Lemma bpow_lt_inv (a b : Z) : (bpow a < bpow b)%R -> a < b.
Proof.
  intros H. destruct (Z_lt_ge_dec a b) as [|Hge]; [assumption|exfalso].
  pose proof (bpow_le b a ltac:(lia)). lra.
Qed.

Lemma bpow_sub (a b : Z) : bpow (a - b) = (bpow a / bpow b)%R.
Proof.
  unfold Z.sub, Rdiv. now rewrite bpow_add, bpow_opp.
Qed.

Lemma bpow_neq_0 (e : Z) : bpow e <> 0%R.
Proof. pose proof (bpow_gt_0 e). lra. Qed.

(** A real between two consecutive integers pins the lower one. *)
Lemma IZR_floor_unique (m n : Z) (u : R) :
  (IZR m <= u < IZR m + 1)%R -> (IZR n <= u < IZR n + 1)%R -> m = n.
Proof.
  intros [H1 H2] [H3 H4].
  assert (m < n + 1) by (apply lt_IZR; rewrite plus_IZR; lra).
  assert (n < m + 1) by (apply lt_IZR; rewrite plus_IZR; lra).
  lia.
Qed.

(** ** Locations and right shifts *)

Lemma inbetween_bounds (m : Z) (l : location) (u : R) :
  inbetween m l u -> (IZR m <= u < IZR m + 1)%R.
Proof. destruct l as [|[| |]]; simpl; lra. Qed.

Lemma IZR_xO (p : positive) : IZR (Z.pos p~0) = (2 * IZR (Z.pos p))%R.
Proof. change (Z.pos p~0) with (2 * Z.pos p). now rewrite mult_IZR. Qed.

Lemma IZR_xI (p : positive) : IZR (Z.pos p~1) = (2 * IZR (Z.pos p) + 1)%R.
Proof. change (Z.pos p~1) with (2 * Z.pos p + 1). now rewrite plus_IZR, mult_IZR. Qed.

Lemma shr_1_located (mrs : shr_record) (u : R) :
  located mrs u -> located (shr_1 mrs) (u / 2).
Proof.
  destruct mrs as [m r s]. unfold located. cbn [shr_m]. intros [Hm Hu].
  destruct m as [|[p|p|]|p]; try lia.
  - destruct r, s; cbn in *; (split; [lia|lra]).
  - pose proof (IZR_xI p) as Hp.
    destruct r, s; cbn in Hu |- *; revert Hu Hp;
      generalize (IZR (Z.pos p~1)); intros a Hu Hp; (split; [lia|lra]).
  - pose proof (IZR_xO p) as Hp.
    destruct r, s; cbn in Hu |- *; revert Hu Hp;
      generalize (IZR (Z.pos p~0)); intros a Hu Hp; (split; [lia|lra]).
  - destruct r, s; cbn in *; (split; [lia|lra]).
Qed.

Lemma iter_shr_1_located (p : positive) :
  forall mrs u, located mrs u ->
    located (SpecFloat.iter_pos shr_1 p mrs) (u / bpow (Z.pos p)).
Proof.
  induction p as [p IH|p IH|]; intros mrs u H; cbn [SpecFloat.iter_pos].
  - replace (u / bpow (Z.pos p~1))%R
      with (u / 2 / bpow (Z.pos p) / bpow (Z.pos p))%R.
    + apply IH, IH, shr_1_located, H.
    + replace (Z.pos p~1) with (Z.pos p + Z.pos p + 1) by lia.
      rewrite !bpow_add. pose proof (bpow_neq_0 (Z.pos p)).
      unfold bpow at 3; simpl. field. assumption.
  - replace (u / bpow (Z.pos p~0))%R
      with (u / bpow (Z.pos p) / bpow (Z.pos p))%R.
    + apply IH, IH, H.
    + replace (Z.pos p~0) with (Z.pos p + Z.pos p) by lia.
      rewrite !bpow_add. pose proof (bpow_neq_0 (Z.pos p)).
      field. assumption.
  - replace (u / bpow 1)%R with (u / 2)%R.
    + apply shr_1_located, H.
    + unfold bpow; simpl. field.
Qed.

Lemma located_of_loc (m : Z) (l : location) (u : R) :
  0 <= m -> inbetween m l u -> located (shr_record_of_loc m l) u.
Proof.
  intros Hm Hu. unfold located. now destruct l as [|[| |]].
Qed.

(** ** Nearest integer, ties to even *)

Lemma round_nearest_even_correct (mrs : shr_record) (u : R) :
  located mrs u ->
  let N := round_nearest_even (shr_m mrs) (loc_of_shr_record mrs) in
  nearest_even N u /\ shr_m mrs <= N <= shr_m mrs + 1.
Proof.
  intros [Hm Hu]. cbv zeta.
  destruct (loc_of_shr_record mrs) as [|[| |]]; cbn in *.
  - split; [left; lra|lia].
  - destruct (Z.even (shr_m mrs)) eqn:He.
    + split; [right; split; [left; lra|assumption]|lia].
    + split; [|lia]. right. rewrite plus_IZR. split; [right; lra|].
      rewrite Z.even_add, He. reflexivity.
  - split; [left; lra|lia].
  - split; [left; rewrite plus_IZR; lra|lia].
Qed.

Lemma nearest_even_bounds (N A B : Z) (r : R) :
  nearest_even N r -> (IZR A <= r)%R -> (r <= IZR B)%R -> A <= N <= B.
Proof.
  intros HN HA HB.
  assert (IZR (A - 1) < IZR N)%R
    by (rewrite minus_IZR; destruct HN as [?|[[?|?] _]]; lra).
  assert (IZR N < IZR (B + 1))%R
    by (rewrite plus_IZR; destruct HN as [?|[[?|?] _]]; lra).
  assert (A - 1 < N) by now apply lt_IZR.
  assert (N < B + 1) by now apply lt_IZR.
  lia.
Qed.

Lemma nearest_even_mono (M N : Z) (r s : R) :
  nearest_even M r -> nearest_even N s -> (r <= s)%R -> M <= N.
Proof.
  intros HM HN Hrs.
  destruct (Z_le_gt_dec M N) as [|Hgt]; [assumption|exfalso].
  assert (Hge : (IZR N + 1 <= IZR M)%R)
    by (rewrite <- plus_IZR; apply IZR_le; lia).
  destruct HM as [?|[[?|HM] EM]]; destruct HN as [?|[[HN|?] EN]]; try lra.
  assert (M = N + 1) by (apply eq_IZR; rewrite plus_IZR; lra).
  subst M. rewrite Z.even_add, EN in EM. discriminate.
Qed.

(** ** Division by a positive real *)

Lemma Rdiv_lower (a b x : R) : (0 < b)%R -> (a * b <= x)%R -> (a <= x / b)%R.
Proof.
  intros Hb H. pose proof (Rinv_0_lt_compat b Hb).
  replace a with (a * b * / b)%R by (field; lra).
  unfold Rdiv. apply Rmult_le_compat_r; lra.
Qed.

Lemma Rdiv_upper (a b x : R) : (0 < b)%R -> (x < a * b)%R -> (x / b < a)%R.
Proof.
  intros Hb H. pose proof (Rinv_0_lt_compat b Hb).
  replace a with (a * b * / b)%R by (field; lra).
  unfold Rdiv. apply Rmult_lt_compat_r; lra.
Qed.

Lemma Rdiv_upper_le (a b x : R) : (0 < b)%R -> (x <= a * b)%R -> (x / b <= a)%R.
Proof.
  intros Hb H. pose proof (Rinv_0_lt_compat b Hb).
  replace a with (a * b * / b)%R by (field; lra).
  unfold Rdiv. apply Rmult_le_compat_r; lra.
Qed.

Lemma Rdiv_mono (b x y : R) : (0 < b)%R -> (x <= y)%R -> (x / b <= y / b)%R.
Proof.
  intros Hb H. pose proof (Rinv_0_lt_compat b Hb).
  unfold Rdiv. apply Rmult_le_compat_r; lra.
Qed.

(** ** Rounding to nearest, ties to even, in the normal range *)

Section Rounding.
Variables prec emax : Z.
Hypothesis Hprec : 1 < prec.

Local Abbreviation emin := (SpecFloat.emin prec emax).
Local Abbreviation fexp := (SpecFloat.fexp prec emax).

Lemma scaled_bounds (k : Z) (x : R) :
  (bpow (k - 1) <= x < bpow k)%R ->
  (bpow (prec - 1) <= x / bpow (k - prec) < bpow prec)%R.
Proof.
  intros [H1 H2]. pose proof (bpow_gt_0 (k - prec)) as Hb. split.
  - apply Rdiv_lower; [assumption|]. rewrite <- bpow_add.
    now replace (prec - 1 + (k - prec)) with (k - 1) by lia.
  - apply Rdiv_upper; [assumption|]. rewrite <- bpow_add.
    now replace (prec + (k - prec)) with k by lia.
Qed.

Lemma rounded_mantissa (k N : Z) (x : R) :
  (bpow (k - 1) <= x < bpow k)%R ->
  nearest_even N (x / bpow (k - prec)) ->
  2 ^ (prec - 1) <= N <= 2 ^ prec.
Proof.
  intros Hx HN. pose proof (scaled_bounds k x Hx) as [H1 H2].
  apply (nearest_even_bounds N _ _ _ HN).
  - now rewrite <- bpow_IZR by lia.
  - rewrite <- bpow_IZR by lia. lra.
Qed.

Lemma rounded_bounds (x v : R) (a b : Z) :
  rounded prec x v -> (bpow a <= x)%R -> (x < bpow b)%R ->
  (bpow a <= v <= bpow b)%R.
Proof.
  intros (k & N & Hx & -> & HN) Ha Hb.
  pose proof (rounded_mantissa k N x Hx HN) as [HN1 HN2].
  assert (a < k) by (apply bpow_lt_inv; lra).
  assert (k - 1 < b) by (apply bpow_lt_inv; lra).
  pose proof (bpow_gt_0 (k - prec)) as Hp.
  apply IZR_le in HN1, HN2. rewrite <- bpow_IZR in HN1, HN2 by lia.
  split.
  - apply Rle_trans with (bpow (k - 1)); [apply bpow_le; lia|].
    replace (k - 1) with (prec - 1 + (k - prec)) by lia. rewrite bpow_add.
    apply Rmult_le_compat_r; lra.
  - apply Rle_trans with (bpow k); [|apply bpow_le; lia].
    replace k with (prec + (k - prec)) at 2 by lia. rewrite bpow_add.
    apply Rmult_le_compat_r; lra.
Qed.

Lemma rounded_pos (x v : R) : rounded prec x v -> (0 < x)%R /\ (0 < v)%R.
Proof.
  intros H. destruct H as (k & N & Hx & Hv & HN).
  pose proof (bpow_gt_0 (k - 1)). split; [lra|].
  assert (Hr : rounded prec x v) by (exists k, N; auto).
  pose proof (rounded_bounds x v (k - 1) k Hr ltac:(lra) ltac:(lra)). lra.
Qed.

(** Rounding is monotone. *)
Lemma rounded_mono (x y v w : R) :
  rounded prec x v -> rounded prec y w -> (x <= y)%R -> (v <= w)%R.
Proof.
  intros Hv Hw Hxy.
  destruct Hv as (k & M & Hx & Hv & HM). destruct Hw as (j & N & Hy & Hw & HN).
  assert (Hkj : k <= j).
  { assert (k - 1 < j) by (apply bpow_lt_inv; lra). lia. }
  destruct (Z.eq_dec k j) as [<-|Hne].
  - subst v w. pose proof (bpow_gt_0 (k - prec)).
    apply Rmult_le_compat_r; [lra|]. apply IZR_le.
    apply (nearest_even_mono M N _ _ HM HN). now apply Rdiv_mono.
  - assert (Hr1 : rounded prec x v) by (exists k, M; auto).
    assert (Hr2 : rounded prec y w) by (exists j, N; auto).
    pose proof (rounded_bounds x v (k - 1) k Hr1 ltac:(lra) ltac:(lra)).
    pose proof (rounded_bounds y w (j - 1) j Hr2 ltac:(lra) ltac:(lra)).
    pose proof (bpow_le k (j - 1) ltac:(lia)). lra.
Qed.

(** A value that is already a multiple of the unit rounds to itself. *)
Lemma rounded_exact (k N : Z) :
  2 ^ (prec - 1) <= N < 2 ^ prec ->
  rounded prec (IZR N * bpow (k - prec)) (IZR N * bpow (k - prec)).
Proof.
  intros [H1 H2]. exists k, N. pose proof (bpow_gt_0 (k - prec)) as Hp.
  apply IZR_le in H1. apply IZR_lt in H2.
  rewrite <- bpow_IZR in H1, H2 by lia. split; [split|split].
  - replace (k - 1) with (prec - 1 + (k - prec)) by lia. rewrite bpow_add.
    apply Rmult_le_compat_r; lra.
  - replace k with (prec + (k - prec)) at 2 by lia. rewrite bpow_add.
    apply Rmult_lt_compat_r; lra.
  - reflexivity.
  - left. replace (IZR N * bpow (k - prec) / bpow (k - prec))%R with (IZR N)
      by (field; lra). lra.
Qed.

(** ** The shifts of [shr_fexp] *)

Lemma shr_fexp_located (m e : Z) (l : location) (u : R) (E : Z) :
  0 <= m -> inbetween m l u ->
  fexp (Zdigits2 m + e) = E -> e <= E ->
  exists mrs, shr_fexp prec emax m e l = (mrs, E) /\
    located mrs (u * bpow e / bpow E).
Proof.
  intros Hm Hu HE Hle. unfold shr_fexp. rewrite HE.
  pose proof (located_of_loc m l u Hm Hu) as Hloc.
  pose proof (bpow_neq_0 e) as He.
  destruct (E - e) as [|p|p] eqn:Hd; try lia; cbn [shr].
  - assert (Hee : E = e) by lia. rewrite Hee. eexists. split; [reflexivity|].
    replace (u * bpow e / bpow e)%R with u by (field; assumption).
    assumption.
  - eexists. split; [f_equal; lia|].
    replace (u * bpow e / bpow E)%R with (u / bpow (Z.pos p))%R.
    + now apply iter_shr_1_located.
    + rewrite <- Hd, bpow_sub. pose proof (bpow_neq_0 E). field. tauto.
Qed.

(** ** [binary_round_aux] rounds to nearest even *)

Lemma binary_round_aux_correct (m e : Z) (l : location) (u : R) :
  inbetween m l u -> (bpow (prec - 1) <= u)%R ->
  (bpow (emin + prec - 1) <= u * bpow e < bpow (emax - 1))%R ->
  exists m' e',
    binary_round_aux prec emax false m e l = S754_finite false m' e' /\
    rounded prec (u * bpow e) (IZR (Z.pos m') * bpow e').
Proof.
  intros Hu Hlo [Hx1 Hx2].
  pose proof (inbetween_bounds _ _ _ Hu) as [Hmu Hum].
  assert (Hm : 2 ^ (prec - 1) <= m).
  { assert (2 ^ (prec - 1) < m + 1); [|lia].
    apply lt_IZR. rewrite plus_IZR, <- bpow_IZR by lia. lra. }
  assert (Hm0 : 0 < m)
    by (pose proof (Z.pow_pos_nonneg 2 (prec - 1) ltac:(lia) ltac:(lia)); lia).
  pose proof (Zdigits2_ge_pow m (prec - 1) ltac:(lia) Hm) as Hd.
  pose proof (Zdigits2_bounds m Hm0) as [_ Hmd].
  pose proof (IZR_digits_bounds m Hm0) as [Hd1 _].
  set (d := Zdigits2 m) in *.
  assert (Hud : (u < bpow d)%R).
  { rewrite bpow_IZR by lia. apply Rlt_le_trans with (IZR (m + 1)).
    - now rewrite plus_IZR.
    - apply IZR_le. lia. }
  pose proof (bpow_gt_0 e) as Hpe.
  set (k := d + e).
  assert (Hx : (bpow (k - 1) <= u * bpow e < bpow k)%R).
  { unfold k. replace (d + e - 1) with (d - 1 + e) by lia. rewrite !bpow_add.
    split; [apply Rmult_le_compat_r|apply Rmult_lt_compat_r]; lra. }
  assert (Hk1 : emin + prec - 1 < k) by (apply bpow_lt_inv; lra).
  assert (Hk2 : k - 1 < emax - 1) by (apply bpow_lt_inv; lra).
  assert (Hfk : fexp k = k - prec) by (unfold SpecFloat.fexp; lia).
  destruct (shr_fexp_located m e l u (k - prec) ltac:(lia) Hu Hfk ltac:(lia))
    as (mrs1 & Hs1 & Hloc1).
  pose proof (round_nearest_even_correct mrs1 _ Hloc1) as [HN _].
  set (N := round_nearest_even (shr_m mrs1) (loc_of_shr_record mrs1)) in *.
  pose proof (rounded_mantissa k N _ Hx HN) as [HN1 HN2].
  assert (HN0 : 0 < N)
    by (pose proof (Z.pow_pos_nonneg 2 (prec - 1) ltac:(lia) ltac:(lia)); lia).
  unfold binary_round_aux. rewrite Hs1. fold N.
  assert (Hstep : exists M E2, 0 < M /\ E2 <= emax - prec /\
            fexp (Zdigits2 N + (k - prec)) = E2 /\ k - prec <= E2 /\
            (IZR N * bpow (k - prec) / bpow E2 = IZR M)%R).
  { pose proof (bpow_neq_0 (k - prec)).
    destruct (Z.eq_dec N (2 ^ prec)) as [HNe|HNe].
    - exists (2 ^ (prec - 1)), (k + 1 - prec).
      assert (Zdigits2 N = prec + 1).
      { apply Z.le_antisymm.
        - apply Zdigits2_lt_pow; try lia. rewrite HNe.
          apply Z.pow_lt_mono_r; lia.
        - apply Zdigits2_ge_pow; lia. }
      split; [apply Z.pow_pos_nonneg; lia|]. split; [lia|].
      split; [unfold SpecFloat.fexp; lia|]. split; [lia|].
      rewrite HNe. replace (k + 1 - prec) with (k - prec + 1) by lia.
      replace (2 ^ prec) with (2 ^ (1 + (prec - 1))) by (f_equal; lia).
      rewrite Z.pow_add_r, Z.pow_1_r, mult_IZR, bpow_succ by lia.
      field. assumption.
    - exists N, (k - prec).
      assert (Zdigits2 N = prec).
      { apply Z.le_antisymm.
        - apply Zdigits2_lt_pow; lia.
        - pose proof (Zdigits2_ge_pow N (prec - 1) ltac:(lia) HN1). lia. }
      split; [lia|]. split; [lia|].
      split; [unfold SpecFloat.fexp; lia|]. split; [lia|].
      field. assumption. }
  destruct Hstep as (M & E2 & HM0 & HE2 & HfN & HkE & HMv).
  destruct (shr_fexp_located N (k - prec) loc_Exact (IZR N) E2
              ltac:(lia) eq_refl HfN HkE) as (mrs2 & Hs2 & _ & Hloc2).
  rewrite Hs2. rewrite HMv in Hloc2. apply inbetween_bounds in Hloc2.
  assert (HmM : shr_m mrs2 = M)
    by (apply (IZR_floor_unique _ _ (IZR M)); [assumption|lra]).
  rewrite HmM. destruct M as [|M|M]; try lia.
  replace (E2 <=? emax - prec) with true by (symmetry; apply Z.leb_le; lia).
  exists M, E2. split; [reflexivity|].
  exists k, N. repeat split; try assumption; try apply Hx.
  rewrite <- HMv. field. apply bpow_neq_0.
Qed.

(** ** Rounding a value that may be zero *)

Lemma rounded0_mono (x y v w : R) :
  rounded0 prec x v -> rounded0 prec y w -> (0 <= x <= y)%R -> (v <= w)%R.
Proof.
  intros [[Hx Hv]|Hv] [[Hy Hw]|Hw] Hxy.
  - lra.
  - apply rounded_pos in Hw. lra.
  - apply rounded_pos in Hv. lra.
  - apply (rounded_mono x y); tauto.
Qed.

Lemma rounded0_nonneg (x v : R) : rounded0 prec x v -> (0 <= x)%R /\ (0 <= v)%R.
Proof. intros [[-> ->]|H]; [lra|]. apply rounded_pos in H. lra. Qed.

Lemma iter_xO (m d : positive) :
  Z.pos (Pos.iter xO m d) = Z.pos m * 2 ^ Z.pos d.
Proof.
  induction d as [|d IH] using Pos.peano_ind.
  - cbn [Pos.iter]. rewrite Z.pow_1_r. lia.
  - rewrite Pos.iter_succ, Pos2Z.inj_succ, Z.pow_succ_r by lia.
    rewrite Pos2Z.inj_xO, IH. lia.
Qed.

Lemma shl_align_correct (mx : positive) (ex ex' : Z) :
  snd (shl_align mx ex ex') = Z.min ex ex' /\
  (IZR (Z.pos (fst (shl_align mx ex ex'))) * bpow (snd (shl_align mx ex ex')) =
   IZR (Z.pos mx) * bpow ex)%R.
Proof.
  unfold shl_align. destruct (ex' - ex) as [|p|p] eqn:Hd; cbn [fst snd].
  - split; [lia|reflexivity].
  - split; [lia|reflexivity].
  - split; [lia|]. rewrite iter_xO, mult_IZR, <- bpow_IZR by lia.
    rewrite Rmult_assoc, <- bpow_add. f_equal. f_equal. lia.
Qed.

(** ** [binary_round]: a positive integer times a power of two *)

Lemma binary_round_correct (mx : positive) (ex : Z) :
  normal prec emax (IZR (Z.pos mx) * bpow ex) ->
  exists m' e',
    binary_round prec emax false mx ex = S754_finite false m' e' /\
    rounded prec (IZR (Z.pos mx) * bpow ex) (IZR (Z.pos m') * bpow e').
Proof.
  intros [Hx1 Hx2]. unfold binary_round.
  pose proof (shl_align_correct mx ex (fexp (Z.pos (digits2_pos mx) + ex)))
    as [He Hv].
  destruct (shl_align _ _ _) as [mz ez]. cbn [fst snd] in He, Hv.
  pose proof (IZR_digits_bounds (Z.pos mx) ltac:(lia)) as [Hd1 Hd2].
  cbn [Zdigits2] in Hd1, Hd2. set (d := Z.pos (digits2_pos mx)) in *.
  pose proof (bpow_gt_0 ex) as Hpe. pose proof (bpow_gt_0 ez) as Hpz.
  assert (Hk : emin + prec - 1 < d + ex).
  { apply bpow_lt_inv. rewrite (bpow_add d).
    apply Rle_lt_trans with (1 := Hx1). apply Rmult_lt_compat_r; lra. }
  assert (Hez : ez <= d + ex - prec) by (unfold SpecFloat.fexp in He; lia).
  rewrite <- Hv in Hx1, Hx2 |- *.
  apply binary_round_aux_correct; [reflexivity| |split; assumption].
  apply Rmult_le_reg_r with (bpow ez); [assumption|].
  rewrite <- bpow_add, Hv.
  apply Rle_trans with (bpow (d - 1 + ex)); [apply bpow_le; lia|].
  rewrite bpow_add. apply Rmult_le_compat_r; lra.
Qed.

(** ** Canonical mantissas *)

Lemma bounded_canonical (m : positive) (e : Z) :
  SpecFloat.bounded prec emax m e = true ->
  e = fexp (Z.pos (digits2_pos m) + e) /\ e <= emax - prec.
Proof.
  unfold SpecFloat.bounded, canonical_mantissa. intros H.
  apply andb_true_iff in H as [H1 H2].
  apply Z.eqb_eq in H1. apply Z.leb_le in H2. split; [congruence|assumption].
Qed.

(** A canonical mantissa has at most [prec] digits, and exactly [prec]
    above the least exponent. *)
Lemma canonical_digits (m : positive) (e : Z) :
  SpecFloat.bounded prec emax m e = true ->
  Z.pos (digits2_pos m) <= prec /\
  (emin < e -> Z.pos (digits2_pos m) = prec) /\ emin <= e.
Proof.
  intros H. apply bounded_canonical in H as [H _].
  unfold SpecFloat.fexp in H. lia.
Qed.

Lemma normal_mantissa (m : positive) (e : Z) :
  SpecFloat.bounded prec emax m e = true ->
  (bpow (emin + prec - 1) <= IZR (Z.pos m) * bpow e)%R ->
  2 ^ (prec - 1) <= Z.pos m < 2 ^ prec /\ emin <= e.
Proof.
  intros Hb Hx. pose proof (canonical_digits m e Hb) as (Hd1 & Hd2 & He).
  pose proof (digits2_bounds m) as [Hm1 Hm2].
  pose proof (IZR_digits_bounds (Z.pos m) ltac:(lia)) as [_ Hr].
  cbn [Zdigits2] in Hr. set (d := Z.pos (digits2_pos m)) in *.
  assert (emin + prec - 1 < d + e).
  { apply bpow_lt_inv. rewrite (bpow_add d). pose proof (bpow_gt_0 e).
    apply Rle_lt_trans with (1 := Hx). apply Rmult_lt_compat_r; lra. }
  assert (d = prec) by lia.
  split; [|assumption]. split; [|apply Z.lt_le_trans with (1 := Hm2)].
  - now replace (prec - 1) with (d - 1) by lia.
  - apply Z.pow_le_mono_r; lia.
Qed.

(** ** Multiplication *)

Lemma SFmul_correct (fx fy : spec_float) (x y : R) :
  is_value fx x -> is_value fy y -> SpecFloat.valid_binary prec emax fx = true ->
  ((x * y = 0)%R \/ (bpow (emin + prec - 1) <= x)%R /\ normal prec emax (x * y)) ->
  exists v, is_value (SFmul prec emax fx fy) v /\ rounded0 prec (x * y) v.
Proof.
  intros Hx Hy Hvx Hr.
  destruct fx as [sx| | |[|] mx ex]; try contradiction;
    destruct fy as [sy| | |[|] my ey]; try contradiction; cbn in Hx, Hy.
  - exists 0%R. split; [reflexivity|]. left. subst. split; [ring|reflexivity].
  - exists 0%R. split; [reflexivity|]. left. subst. split; [ring|reflexivity].
  - exists 0%R. split; [reflexivity|]. left. subst. split; [ring|reflexivity].
  - cbn [SFmul xorb]. cbn [SpecFloat.valid_binary] in Hvx.
    pose proof (bpow_gt_0 ex). pose proof (bpow_gt_0 ey).
    assert (Hxp : (0 < x)%R) by (subst x; apply Rmult_lt_0_compat;
      [apply IZR_lt; lia|assumption]).
    assert (Hyp : (0 < y)%R) by (subst y; apply Rmult_lt_0_compat;
      [apply IZR_lt; lia|assumption]).
    destruct Hr as [Hz|[Hn Hr]]; [nra|].
    rewrite Hx in Hn. pose proof (normal_mantissa mx ex Hvx Hn) as [[Hm _] _].
    assert (Hxy : (x * y = IZR (Z.pos (mx * my)) * bpow (ex + ey))%R).
    { rewrite Pos2Z.inj_mul, mult_IZR, bpow_add, Hx, Hy. ring. }
    rewrite Hxy in Hr |- *.
    destruct (binary_round_aux_correct (Z.pos (mx * my)) (ex + ey) loc_Exact
                (IZR (Z.pos (mx * my))) eq_refl) as (m' & e' & Hres & Hrnd).
    + rewrite bpow_IZR by lia. apply IZR_le. nia.
    + exact Hr.
    + rewrite Hres. eexists. split; [reflexivity|]. right. exact Hrnd.
Qed.

(** ** Division *)

Lemma Rdiv_lower_lt (a b x : R) : (0 < b)%R -> (a * b < x)%R -> (a < x / b)%R.
Proof.
  intros Hb H. pose proof (Rinv_0_lt_compat b Hb).
  replace a with (a * b * / b)%R by (field; lra).
  unfold Rdiv. apply Rmult_lt_compat_r; lra.
Qed.

Lemma new_location_correct (q r n : Z) :
  0 < n -> 0 <= r < n ->
  inbetween q (new_location n r) (IZR q + IZR r / IZR n).
Proof.
  intros Hn [Hr0 Hrn].
  assert (Hn' : (0 < IZR n)%R) by (apply IZR_lt; lia).
  assert (Hlt : 2 * r < n -> (IZR r / IZR n < / 2)%R).
  { intros H. apply Rdiv_upper; [assumption|].
    apply IZR_lt in H. rewrite mult_IZR in H. lra. }
  assert (Hgt : n < 2 * r -> (/ 2 < IZR r / IZR n)%R).
  { intros H. apply Rdiv_lower_lt; [assumption|].
    apply IZR_lt in H. rewrite mult_IZR in H. lra. }
  assert (Heq : 2 * r = n -> (IZR r / IZR n = / 2)%R).
  { intros H. rewrite <- H, mult_IZR. field.
    rewrite <- H, mult_IZR in Hn'. lra. }
  assert (H0 : 0 < r -> (0 < IZR r / IZR n)%R).
  { intros H. apply Rdiv_lower_lt; [assumption|]. apply IZR_lt in H. lra. }
  assert (H1 : (IZR r / IZR n < 1)%R).
  { apply Rdiv_upper; [assumption|]. apply IZR_lt in Hrn. lra. }
  unfold new_location, new_location_even, new_location_odd.
  destruct (Z.even n) eqn:Hev.
  - destruct (Z.eqb_spec r 0) as [->|Hr].
    + cbn. unfold Rdiv. ring.
    + destruct (Z.compare_spec (2 * r) n) as [H|H|H]; cbn.
      * rewrite (Heq H). reflexivity.
      * specialize (Hlt H). specialize (H0 ltac:(lia)). lra.
      * specialize (Hgt H). lra.
  - destruct (Z.eqb_spec r 0) as [->|Hr].
    + cbn. unfold Rdiv. ring.
    + assert (Hne : 2 * r <> n).
      { intros H. rewrite <- H, Z.even_mul in Hev. discriminate. }
      destruct (Z.compare_spec (2 * r + 1) n) as [H|H|H]; cbn.
      * specialize (Hlt ltac:(lia)). specialize (H0 ltac:(lia)). lra.
      * specialize (Hlt ltac:(lia)). specialize (H0 ltac:(lia)). lra.
      * specialize (Hgt ltac:(lia)). lra.
Qed.

Lemma SFdiv_core_correct (m1 m2 : positive) (e1 e2 : Z) :
  exists q e' l u,
    SFdiv_core_binary prec emax (Z.pos m1) e1 (Z.pos m2) e2 = (q, e', l) /\
    inbetween q l u /\
    (u * bpow e' = IZR (Z.pos m1) * bpow e1 / (IZR (Z.pos m2) * bpow e2))%R /\
    e' <= fexp (Z.pos (digits2_pos m1) + e1 - (Z.pos (digits2_pos m2) + e2)).
Proof.
  unfold SFdiv_core_binary. cbn [Zdigits2].
  set (D := Z.pos (digits2_pos m1) + e1 - (Z.pos (digits2_pos m2) + e2)).
  set (e' := Z.min (fexp D) (e1 - e2)).
  set (s := e1 - e2 - e').
  assert (Hs : 0 <= s) by (unfold s, e'; lia).
  set (m' := match s with
             | 0 => Z.pos m1
             | Z.pos _ => Z.shiftl (Z.pos m1) s
             | Z.neg _ => 0
             end).
  assert (Hm' : m' = Z.pos m1 * 2 ^ s).
  { unfold m'. destruct s as [|p|p] eqn:Hsp; try lia.
    - apply Z.shiftl_mul_pow2. lia. }
  pose proof (Z_div_mod m' (Z.pos m2) ltac:(lia)) as Hdiv.
  destruct (Z.div_eucl m' (Z.pos m2)) as [q r]. destruct Hdiv as [Hqr Hr].
  exists q, e', (new_location (Z.pos m2) r), (IZR q + IZR r / IZR (Z.pos m2))%R.
  split; [reflexivity|]. split; [apply new_location_correct; lia|].
  split; [|unfold e'; lia].
  assert (Hm2 : (0 < IZR (Z.pos m2))%R) by (apply IZR_lt; lia).
  pose proof (bpow_neq_0 e2). pose proof (bpow_neq_0 e').
  replace (IZR q + IZR r / IZR (Z.pos m2))%R with (IZR m' / IZR (Z.pos m2))%R
    by (rewrite Hqr, plus_IZR, mult_IZR; field; lra).
  rewrite Hm', mult_IZR, <- bpow_IZR by assumption.
  replace (bpow e1) with (bpow s * bpow e' * bpow e2)%R
    by (rewrite <- !bpow_add; f_equal; unfold s; lia).
  field. split; [assumption|lra].
Qed.

Lemma SFdiv_correct (fx fy : spec_float) (x y : R) :
  is_value fx x -> is_value fy y -> (0 < y)%R ->
  (x = 0%R \/ normal prec emax (x / y)) ->
  exists v, is_value (SFdiv prec emax fx fy) v /\ rounded0 prec (x / y) v.
Proof.
  intros Hx Hy Hy0 Hr.
  destruct fy as [sy| | |[|] my ey]; try contradiction; cbn in Hy; [lra|].
  destruct fx as [sx| | |[|] mx ex]; try contradiction; cbn in Hx.
  - exists 0%R. split; [reflexivity|]. left. subst x.
    split; [unfold Rdiv; ring|reflexivity].
  - pose proof (bpow_gt_0 ex) as Hpx. pose proof (bpow_gt_0 ey) as Hpy.
    assert (Hmx : (0 < IZR (Z.pos mx))%R) by (apply IZR_lt; lia).
    assert (Hx0 : (0 < x)%R) by (subst x; now apply Rmult_lt_0_compat).
    destruct Hr as [Hz|[Hn1 Hn2]]; [lra|].
    cbn [SFdiv xorb].
    destruct (SFdiv_core_correct mx my ex ey)
      as (q & e' & l & u & Hcore & Hu & Huv & He').
    rewrite Hcore. rewrite <- Hx, <- Hy in Huv.
    pose proof (bpow_gt_0 e') as Hpe.
    destruct (binary_round_aux_correct q e' l u Hu) as (m' & e'' & Hres & Hrnd).
    + apply Rmult_le_reg_r with (bpow e'); [assumption|].
      rewrite Huv, <- bpow_add.
      pose proof (IZR_digits_bounds (Z.pos mx) ltac:(lia)) as [Hdx _].
      pose proof (IZR_digits_bounds (Z.pos my) ltac:(lia)) as [_ Hdy].
      cbn [Zdigits2] in Hdx, Hdy.
      set (dx := Z.pos (digits2_pos mx)) in *.
      set (dy := Z.pos (digits2_pos my)) in *.
      assert (HD : (bpow (dx + ex - (dy + ey) - 1) <= x / y)%R).
      { apply Rdiv_lower; [assumption|].
        apply Rle_trans with (bpow (dx + ex - (dy + ey) - 1) * bpow (dy + ey))%R.
        - apply Rmult_le_compat_l; [pose proof (bpow_gt_0 (dx + ex - (dy + ey) - 1)); lra|].
          rewrite Hy, bpow_add. apply Rmult_le_compat_r; lra.
        - rewrite <- bpow_add, Hx.
          replace (dx + ex - (dy + ey) - 1 + (dy + ey)) with (dx - 1 + ex) by lia.
          rewrite bpow_add. apply Rmult_le_compat_r; lra. }
      unfold SpecFloat.fexp in He'.
      destruct (Z_le_gt_dec emin (dx + ex - (dy + ey) - prec)) as [Hc|Hc].
      * apply Rle_trans with (2 := HD). apply bpow_le. lia.
      * apply Rle_trans with (2 := Hn1). apply bpow_le. lia.
    + rewrite Huv. split; assumption.
    + rewrite Hres. eexists. split; [reflexivity|]. right.
      rewrite <- Huv. exact Hrnd.
Qed.

(** ** Subtraction *)

Lemma SFsub_correct (mx my : positive) (ex ey : Z) :
  let x := (IZR (Z.pos mx) * bpow ex)%R in
  let y := (IZR (Z.pos my) * bpow ey)%R in
  (y <= x)%R -> ((x - y = 0)%R \/ normal prec emax (x - y)) ->
  exists v,
    is_value (SFsub prec emax (S754_finite false mx ex) (S754_finite false my ey)) v /\
    rounded0 prec (x - y) v.
Proof.
  intros x y Hyx Hr. cbn [SFsub cond_Zopp].
  set (ez := Z.min ex ey).
  pose proof (shl_align_correct mx ex ez) as [Hex Hvx].
  pose proof (shl_align_correct my ey ez) as [Hey Hvy].
  replace (Z.min ex ez) with ez in Hex by (unfold ez; lia).
  replace (Z.min ey ez) with ez in Hey by (unfold ez; lia).
  rewrite Hex in Hvx. rewrite Hey in Hvy. fold x in Hvx. fold y in Hvy.
  set (X := Z.pos (fst (shl_align mx ex ez))) in *.
  set (Y := Z.pos (fst (shl_align my ey ez))) in *.
  pose proof (bpow_gt_0 ez) as Hpz.
  assert (Hd : (IZR (X - Y) * bpow ez = x - y)%R)
    by (rewrite minus_IZR, <- Hvx, <- Hvy; ring).
  destruct (X - Y) as [|p|p] eqn:HXY; cbn [binary_normalize].
  - exists 0%R. split; [reflexivity|]. left. split; [|reflexivity].
    rewrite <- Hd. ring.
  - assert (Hp : (0 < IZR (Z.pos p))%R) by (apply IZR_lt; lia).
    destruct Hr as [Hz|Hn]; [rewrite <- Hd in Hz; nra|].
    rewrite <- Hd in Hn |- *.
    destruct (binary_round_correct p ez Hn) as (m' & e' & Hres & Hrnd).
    rewrite Hres. eexists. split; [reflexivity|]. right. exact Hrnd.
  - assert (Hp : (IZR (Z.neg p) < 0)%R) by (apply IZR_lt; lia). nra.
Qed.

(** ** Conversion from a positive integer *)

Lemma binary_normalize_pos (n : Z) :
  0 < n -> normal prec emax (IZR n) ->
  exists v, is_value (binary_normalize prec emax n 0 false) v /\
            rounded prec (IZR n) v.
Proof.
  intros Hn Hr. destruct n as [|p|p]; try lia. cbn [binary_normalize].
  assert (He : (IZR (Z.pos p) = IZR (Z.pos p) * bpow 0)%R)
    by (unfold bpow; simpl; ring).
  rewrite He in Hr |- *.
  destruct (binary_round_correct p 0 Hr) as (m' & e' & Hres & Hrnd).
  rewrite Hres. eexists. split; [reflexivity|exact Hrnd].
Qed.

(** ** Comparison *)

Lemma finite_exp_lt (m1 m2 : positive) (e1 e2 : Z) :
  SpecFloat.bounded prec emax m1 e1 = true ->
  SpecFloat.bounded prec emax m2 e2 = true -> e1 < e2 ->
  (IZR (Z.pos m1) * bpow e1 < IZR (Z.pos m2) * bpow e2)%R.
Proof.
  intros H1 H2 He.
  pose proof (canonical_digits m1 e1 H1) as (Hd1 & _ & Hemin).
  pose proof (canonical_digits m2 e2 H2) as (_ & Hd2 & _).
  specialize (Hd2 ltac:(lia)).
  pose proof (IZR_digits_bounds (Z.pos m1) ltac:(lia)) as [_ Hb1].
  pose proof (IZR_digits_bounds (Z.pos m2) ltac:(lia)) as [Hb2 _].
  cbn [Zdigits2] in Hb1, Hb2. rewrite Hd2 in Hb2.
  pose proof (bpow_gt_0 e1). pose proof (bpow_gt_0 e2).
  apply Rlt_le_trans with (bpow (prec + e1)).
  - rewrite bpow_add. apply Rmult_lt_compat_r; [assumption|].
    apply Rlt_le_trans with (1 := Hb1). apply bpow_le. lia.
  - apply Rle_trans with (bpow (prec - 1 + e2)); [apply bpow_le; lia|].
    rewrite bpow_add. apply Rmult_le_compat_r; lra.
Qed.

Lemma SFcompare_correct (f1 f2 : spec_float) (v1 v2 : R) :
  SpecFloat.valid_binary prec emax f1 = true ->
  SpecFloat.valid_binary prec emax f2 = true ->
  is_value f1 v1 -> is_value f2 v2 ->
  exists c, SFcompare f1 f2 = Some c /\
    match c with
    | Lt => (v1 < v2)%R
    | Eq => v1 = v2
    | Gt => (v2 < v1)%R
    end.
Proof.
  intros Hb1 Hb2 H1 H2.
  destruct f1 as [s1| | |[|] m1 e1]; try contradiction;
    destruct f2 as [s2| | |[|] m2 e2]; try contradiction;
    cbn in H1, H2, Hb1, Hb2; cbn [SFcompare].
  - exists Eq. split; [reflexivity|congruence].
  - exists Lt. split; [reflexivity|]. subst.
    apply Rmult_lt_0_compat; [apply IZR_lt; lia|apply bpow_gt_0].
  - exists Gt. split; [reflexivity|]. subst.
    apply Rmult_lt_0_compat; [apply IZR_lt; lia|apply bpow_gt_0].
  - subst v1 v2. destruct (Z.compare_spec e1 e2) as [He|He|He].
    + subst e2. change (Pos.compare_cont Eq m1 m2) with (Pos.compare m1 m2).
      pose proof (bpow_gt_0 e1).
      destruct (Pos.compare_spec m1 m2) as [Hm|Hm|Hm].
      * exists Eq. split; [reflexivity|congruence].
      * exists Lt. split; [reflexivity|].
        apply Rmult_lt_compat_r; [assumption|]. apply IZR_lt. lia.
      * exists Gt. split; [reflexivity|].
        apply Rmult_lt_compat_r; [assumption|]. apply IZR_lt. lia.
    + exists Lt. split; [reflexivity|]. now apply finite_exp_lt.
    + exists Gt. split; [reflexivity|]. now apply finite_exp_lt.
Qed.

Lemma SFleb_correct (f1 f2 : spec_float) (v1 v2 : R) :
  SpecFloat.valid_binary prec emax f1 = true ->
  SpecFloat.valid_binary prec emax f2 = true ->
  is_value f1 v1 -> is_value f2 v2 ->
  SFleb f1 f2 = true <-> (v1 <= v2)%R.
Proof.
  intros Hb1 Hb2 H1 H2. unfold SFleb.
  destruct (SFcompare_correct f1 f2 v1 v2 Hb1 Hb2 H1 H2) as (c & -> & Hc).
  destruct c; split; intros H; try reflexivity; try discriminate; lra.
Qed.

Lemma SFltb_correct (f1 f2 : spec_float) (v1 v2 : R) :
  SpecFloat.valid_binary prec emax f1 = true ->
  SpecFloat.valid_binary prec emax f2 = true ->
  is_value f1 v1 -> is_value f2 v2 ->
  SFltb f1 f2 = true <-> (v1 < v2)%R.
Proof.
  intros Hb1 Hb2 H1 H2. unfold SFltb.
  destruct (SFcompare_correct f1 f2 v1 v2 Hb1 Hb2 H1 H2) as (c & -> & Hc).
  destruct c; split; intros H; try reflexivity; try discriminate; lra.
Qed.

(** An integer of at most [prec] bits rounds to itself. *)
Lemma nearest_even_int (N M : Z) : nearest_even N (IZR M) -> N = M.
Proof.
  intros H. pose proof (nearest_even_bounds N M M (IZR M) H) as HB.
  specialize (HB ltac:(lra) ltac:(lra)). lia.
Qed.

Lemma rounded_int (z : Z) (v : R) :
  0 < z < 2 ^ prec -> rounded prec (IZR z) v -> v = IZR z.
Proof.
  intros [Hz1 Hz2] (k & N & [Hx1 Hx2] & -> & HN).
  assert (Hk : k - 1 < prec).
  { apply bpow_lt_inv. apply Rle_lt_trans with (1 := Hx1).
    rewrite bpow_IZR by lia. now apply IZR_lt. }
  pose proof (bpow_neq_0 (k - prec)) as Hne.
  assert (HM : (IZR z / bpow (k - prec) = IZR (z * 2 ^ (prec - k)))%R).
  { rewrite mult_IZR, <- bpow_IZR by lia.
    replace (prec - k) with (- (k - prec)) by lia. rewrite bpow_opp.
    field. assumption. }
  rewrite HM in HN. apply nearest_even_int in HN. subst N.
  rewrite <- HM. field. assumption.
Qed.

End Rounding.

(** ** The radius formula of [halftone] *)

Lemma prec_gt_1 : 1 < prec.
Proof. reflexivity. Qed.

Lemma normal64 (x : R) :
  (bpow (-1022) <= x)%R -> (x < bpow 1023)%R -> normal prec emax x.
Proof. intros H1 H2. split; assumption. Qed.

Lemma scaled_int (n k : Z) :
  0 <= k -> (IZR (n * 2 ^ k) * bpow (- k))%R = IZR n.
Proof.
  intros Hk. rewrite mult_IZR, bpow_opp, <- bpow_IZR by assumption.
  field. apply bpow_neq_0.
Qed.

Lemma Prim2SF_255 :
  Prim2SF (float_of_Z 255) = S754_finite false 8972014882652160 (-45).
Proof. vm_compute. reflexivity. Qed.

Lemma Prim2SF_2 :
  Prim2SF (float_of_Z 2) = S754_finite false 4503599627370496 (-51).
Proof. vm_compute. reflexivity. Qed.

Lemma value_255 : (IZR (Z.pos 8972014882652160) * bpow (-45) = 255)%R.
Proof. exact (scaled_int 255 45 ltac:(lia)). Qed.

Lemma value_2 : (IZR (Z.pos 4503599627370496) * bpow (-51) = 2)%R.
Proof.
  change (Z.pos 4503599627370496) with (2 ^ 52).
  rewrite <- bpow_IZR, <- bpow_add by lia. unfold bpow. simpl. lra.
Qed.

Lemma bpow_0 : bpow 0 = 1%R.
Proof. reflexivity. Qed.

Lemma bpow_1 : bpow 1 = 2%R.
Proof. unfold bpow. simpl. lra. Qed.

Lemma bpow_8 : bpow 8 = 256%R.
Proof. rewrite bpow_IZR by lia. reflexivity. Qed.

(** A float below 255 is at least [2 ^ -52] below it. *)
Lemma gap_below_255 (my : positive) (ey : Z) :
  SpecFloat.bounded prec emax my ey = true ->
  (IZR (Z.pos my) * bpow ey < 255)%R ->
  (bpow (-52) <= 255 - IZR (Z.pos my) * bpow ey)%R.
Proof.
  intros Hb Hlt. set (a := (IZR (Z.pos my) * bpow ey)%R) in *.
  pose proof (bpow_le (-52) 0 ltac:(lia)) as H52. rewrite bpow_0 in H52.
  destruct (Rlt_le_dec a 1) as [Ha|Ha]; [lra|].
  pose proof (bpow_le (-1022) 0 ltac:(lia)) as H1022. rewrite bpow_0 in H1022.
  destruct (normal_mantissa prec emax prec_gt_1 my ey Hb)
    as [[_ Hm] _]; [fold a; change (SpecFloat.emin prec emax + prec - 1) with (-1022); lra|].
  pose proof (bpow_gt_0 ey) as Hpe.
  assert (Hey : -53 < ey).
  { assert (0 < 53 + ey); [|lia]. apply bpow_lt_inv. rewrite bpow_0, bpow_add.
    apply Rle_lt_trans with (1 := Ha). unfold a.
    apply Rmult_lt_compat_r; [assumption|].
    rewrite bpow_IZR by lia. apply IZR_lt. exact Hm. }
  set (K := 255 * 2 ^ 52 - Z.pos my * 2 ^ (ey + 52)).
  assert (HK : (255 - a = IZR K * bpow (-52))%R).
  { unfold K. rewrite minus_IZR, Rmult_minus_distr_r.
    pose proof (scaled_int 255 52 ltac:(lia)) as E. cbn [Z.opp] in E.
    rewrite E. f_equal.
    rewrite mult_IZR, <- bpow_IZR by lia. unfold a.
    rewrite Rmult_assoc, <- bpow_add. f_equal. f_equal. lia. }
  pose proof (bpow_gt_0 (-52)) as Hp.
  assert (HK0 : 0 < K).
  { apply lt_IZR. apply Rmult_lt_reg_r with (bpow (-52)); [assumption|].
    rewrite <- HK. lra. }
  rewrite HK. assert (1 <= IZR K)%R by (apply IZR_le; lia). nra.
Qed.

(** Line 48, [255 - avg_brightness]. *)
Lemma sub_255_value (avg : float) (a : R) :
  is_value (Prim2SF avg) a -> (0 <= a <= 255)%R ->
  exists t, is_value (Prim2SF (float_of_Z 255 - avg)) t /\
    rounded0 prec (255 - a) t /\
    (t = 0%R \/ (bpow (-52) <= t <= bpow 8)%R).
Proof.
  intros Ha [Ha0 Ha255]. rewrite FloatAxioms.sub_spec. unfold SF64sub.
  pose proof (Prim2SF_valid avg) as Hvalid. rewrite Prim2SF_255.
  pose proof value_255 as Hx. pose proof bpow_8 as H8.
  pose proof (bpow_le (-52) 0 ltac:(lia)) as H52. rewrite bpow_0 in H52.
  destruct (Prim2SF avg) as [s| | |[|] my ey]; try contradiction; cbn in Ha.
  - subst a. exists 255%R. cbn [SFsub]. split; [symmetry; exact Hx|]. split; [|right; lra].
    right. replace (255 - 0)%R with 255%R by ring. rewrite <- Hx.
    apply (rounded_exact prec prec_gt_1 8 (Z.pos 8972014882652160)).
    split; [apply Z.leb_le|apply Z.ltb_lt]; reflexivity.
  - cbn [SpecFloat.valid_binary] in Hvalid.
    destruct (SFsub_correct prec emax prec_gt_1
                8972014882652160 my (-45) ey) as (t & Ht & Hr).
    + rewrite Hx, <- Ha. exact Ha255.
    + rewrite Hx, <- Ha. destruct (Rle_lt_dec 255 a) as [Hc|Hc]; [left; lra|].
      right. pose proof (gap_below_255 my ey Hvalid) as Hg.
      rewrite <- Ha in Hg. specialize (Hg Hc).
      apply normal64.
      * apply Rle_trans with (2 := Hg). apply bpow_le. lia.
      * apply Rlt_le_trans with (bpow 8); [lra|apply bpow_le; lia].
    + rewrite Hx, <- Ha in Hr. exists t. split; [exact Ht|]. split; [exact Hr|].
      destruct Hr as [[_ ->]|Hr]; [left; reflexivity|right].
      apply (rounded_bounds prec prec_gt_1 _ _ _ _ Hr).
      * destruct (Rle_lt_dec 255 a) as [Hc|Hc].
        -- apply rounded_pos in Hr; [lra|exact prec_gt_1].
        -- pose proof (gap_below_255 my ey Hvalid) as Hg.
           rewrite <- Ha in Hg. exact (Hg Hc).
      * lra.
Qed.

(** Line 48, the division by 255. *)
Lemma div_255_value (tf : float) (t : R) :
  is_value (Prim2SF tf) t ->
  (t = 0%R \/ (bpow (-52) <= t <= bpow 8)%R) ->
  exists u, is_value (Prim2SF (tf / float_of_Z 255)) u /\
    rounded0 prec (t / 255) u /\
    (u = 0%R \/ (bpow (-60) <= u <= bpow 1)%R).
Proof.
  intros Ht Hb. rewrite FloatAxioms.div_spec. unfold SF64div. rewrite Prim2SF_255.
  pose proof value_255 as Hx. pose proof bpow_8 as H8. pose proof bpow_1 as H1.
  pose proof (bpow_gt_0 (-60)) as Hp60.
  assert (H52 : bpow (-52) = (bpow (-60) * 256)%R)
    by (rewrite <- H8, <- bpow_add; reflexivity).
  assert (Hlo : (bpow (-52) <= t -> bpow (-60) <= t / 255)%R).
  { intros H. apply Rdiv_lower; lra. }
  assert (Hhi : (t <= bpow 8 -> t / 255 < bpow 1)%R).
  { intros H. apply Rdiv_upper; lra. }
  destruct (SFdiv_correct prec emax prec_gt_1 (Prim2SF tf)
              (S754_finite false 8972014882652160 (-45)) t 255 Ht)
    as (u & Hu & Hr).
  - symmetry. exact Hx.
  - lra.
  - destruct Hb as [Hz|[Hb1 Hb2]]; [left; exact Hz|right].
    apply normal64.
    + apply Rle_trans with (2 := Hlo Hb1). apply bpow_le. lia.
    + apply Rlt_le_trans with (1 := Hhi Hb2). apply bpow_le. lia.
  - exists u. split; [exact Hu|]. split; [exact Hr|].
    destruct Hr as [[_ ->]|Hr]; [left; reflexivity|right].
    destruct Hb as [Hz|[Hb1 Hb2]].
    + apply rounded_pos in Hr; [|exact prec_gt_1]. subst t.
      unfold Rdiv in Hr. rewrite Rmult_0_l in Hr. lra.
    + apply (rounded_bounds prec prec_gt_1 _ _ _ _ Hr); auto.
Qed.

(** Line 48, the product with half the cell's side. *)
Lemma mul_value (uf cf : float) (u c : R) :
  is_value (Prim2SF uf) u -> is_value (Prim2SF cf) c ->
  (u = 0%R \/ (bpow (-60) <= u <= bpow 1)%R) ->
  (bpow (-1) <= c <= bpow 53)%R ->
  exists r, is_value (Prim2SF (uf * cf)) r /\ rounded0 prec (u * c) r.
Proof.
  intros Hu Hc Hub [Hc1 Hc2]. rewrite FloatAxioms.mul_spec. unfold SF64mul.
  apply (SFmul_correct prec emax prec_gt_1 _ _ u c Hu Hc
           (Prim2SF_valid uf)).
  destruct Hub as [->|[Hu1 Hu2]]; [left; ring|right].
  pose proof (bpow_gt_0 (-60)). pose proof (bpow_gt_0 (-1)).
  split; [|apply normal64].
  - apply Rle_trans with (2 := Hu1). apply bpow_le. vm_compute. discriminate.
  - apply Rle_trans with (bpow (-60) * bpow (-1))%R.
    + rewrite <- bpow_add. apply bpow_le. lia.
    + apply Rmult_le_compat; lra.
  - apply Rle_lt_trans with (bpow 1 * bpow 53)%R.
    + apply Rmult_le_compat; lra.
    + rewrite <- bpow_add. apply bpow_lt. lia.
Qed.

(** Line 48, [dot_size * scale / 2]. *)
Lemma half_size_value (z : Z) :
  1 <= z < 2 ^ 53 ->
  exists c, is_value (Prim2SF (float_of_Z z / float_of_Z 2)) c /\
    (bpow (-1) <= c <= bpow 53)%R.
Proof.
  intros [Hz1 Hz2].
  assert (Hv : exists v, is_value (Prim2SF (float_of_Z z)) v /\
                 (bpow 0 <= v <= bpow 53)%R).
  { unfold float_of_Z. destruct (Z.ltb_spec z 0) as [|_]; [lia|].
    rewrite FloatAxioms.of_uint63_spec, Uint63.of_Z_spec.
    rewrite Z.mod_small by (change wB with (2 ^ 63); lia).
    assert (H1 : (bpow 0 <= IZR z)%R) by (rewrite bpow_0; apply IZR_le; lia).
    assert (H2 : (IZR z < bpow 53)%R)
      by (rewrite bpow_IZR by lia; apply IZR_lt; exact Hz2).
    destruct (binary_normalize_pos prec emax prec_gt_1 z)
      as (v & Hv & Hr); [lia| |].
    - apply normal64.
      + apply Rle_trans with (2 := H1). apply bpow_le. lia.
      + apply Rlt_le_trans with (1 := H2). apply bpow_le. lia.
    - exists v. split; [exact Hv|].
      now apply (rounded_bounds prec prec_gt_1 _ _ _ _ Hr). }
  destruct Hv as (v & Hv & Hv1 & Hv2).
  rewrite FloatAxioms.div_spec. unfold SF64div. rewrite Prim2SF_2.
  pose proof value_2 as Hx. pose proof bpow_1 as H1. rewrite bpow_0 in Hv1.
  assert (Hlo : (bpow (-1) <= v / 2)%R).
  { apply Rdiv_lower; [lra|]. rewrite <- H1, <- bpow_add. exact Hv1. }
  assert (Hhi : (v / 2 < bpow 53)%R).
  { apply Rdiv_upper; [lra|]. pose proof (bpow_gt_0 53). lra. }
  destruct (SFdiv_correct prec emax prec_gt_1 _
              (S754_finite false 4503599627370496 (-51)) v 2 Hv)
    as (c & Hc & Hr).
  - symmetry. exact Hx.
  - lra.
  - right. apply normal64.
    + apply Rle_trans with (2 := Hlo). apply bpow_le. lia.
    + apply Rlt_le_trans with (1 := Hhi). apply bpow_le. lia.
  - exists c. split; [exact Hc|].
    destruct Hr as [[Hz _]|Hr]; [pose proof (bpow_gt_0 (-1)); lra|].
    now apply (rounded_bounds prec prec_gt_1 _ _ _ _ Hr).
Qed.

(** The floats from 0 to 255 and their reals. *)
Lemma brightness_values (avg1 avg2 : float) :
  (0 <=? avg1)%float = true -> (avg1 <? avg2)%float = true ->
  (avg2 <=? 255)%float = true ->
  exists a1 a2, is_value (Prim2SF avg1) a1 /\ is_value (Prim2SF avg2) a2 /\
    (0 <= a1 /\ a1 < a2 /\ a2 <= 255)%R.
Proof.
  rewrite !FloatAxioms.leb_spec, FloatAxioms.ltb_spec.
  replace (Prim2SF 0) with (S754_zero false) by (vm_compute; reflexivity).
  replace (Prim2SF 255) with (S754_finite false 8972014882652160 (-45))
    by (vm_compute; reflexivity).
  pose proof (Prim2SF_valid avg1) as Hb1. pose proof (Prim2SF_valid avg2) as Hb2.
  set (f1 := Prim2SF avg1) in *. set (f2 := Prim2SF avg2) in *.
  intros H0 H1 H2.
  assert (Hex : exists a1 a2, is_value f1 a1 /\ is_value f2 a2).
  { destruct f1 as [s1|[|]| |[|] m1 e1]; destruct f2 as [s2|[|]| |[|] m2 e2];
      try discriminate; try (destruct s1; discriminate);
      try (destruct s2; discriminate);
      eexists; eexists; split; cbn; reflexivity. }
  destruct Hex as (a1 & a2 & Hv1 & Hv2). exists a1, a2.
  split; [exact Hv1|]. split; [exact Hv2|].
  split; [|split].
  - apply (SFleb_correct prec emax (S754_zero false) f1);
      try assumption; reflexivity.
  - apply (SFltb_correct prec emax f1 f2); assumption.
  - apply (SFleb_correct prec emax f2
             (S754_finite false 8972014882652160 (-45))); try assumption.
    + reflexivity.
    + symmetry. exact value_255.
Qed.

(** Line 48 on a brightness between 0 and 255: the three roundings. *)
Lemma dot_radius_value (avg cf : float) (a c : R) :
  is_value (Prim2SF avg) a -> (0 <= a <= 255)%R ->
  is_value (Prim2SF cf) c -> (bpow (-1) <= c <= bpow 53)%R ->
  exists t u r,
    rounded0 prec (255 - a) t /\ rounded0 prec (t / 255) u /\
    rounded0 prec (u * c) r /\
    is_value (Prim2SF ((float_of_Z 255 - avg) / float_of_Z 255 * cf)) r.
Proof.
  intros Ha Hab Hc Hcb.
  destruct (sub_255_value avg a Ha Hab) as (t & Ht & Hrt & Htb).
  destruct (div_255_value _ t Ht Htb) as (u & Hu & Hru & Hub).
  destruct (mul_value _ cf u c Hu Hc Hub Hcb) as (r & Hr & Hrr).
  exists t, u, r. auto.
Qed.

(** C8 at binary64: for a cell side [dot_size * scale] from 1 to 2^53 and
    two average brightnesses [0 <= avg1 < avg2 <= 255], line 48 gives the
    darker cell a radius that is at least the brighter cell's. *)
Theorem dot_radius_antitone (avg1 avg2 : float) (dot_size scale : Z) :
  1 <= dot_size -> 1 <= scale ->
  exactly_representable (dot_size * scale) ->
  (0 <=? avg1)%float = true -> (avg1 <? avg2)%float = true ->
  (avg2 <=? 255)%float = true ->
  (dot_radius avg2 dot_size scale <=? dot_radius avg1 dot_size scale)%float
  = true.
Proof.
  intros Hd Hs Hrep H0 H1 H2.
  destruct (brightness_values avg1 avg2 H0 H1 H2)
    as (a1 & a2 & Hv1 & Hv2 & Ha0 & Ha12 & Ha255).
  destruct (half_size_value (dot_size * scale)) as (c & Hc & Hcb);
    [unfold exactly_representable in Hrep; nia|].
  change (dot_radius avg1 dot_size scale)
    with ((float_of_Z 255 - avg1) / float_of_Z 255 *
          (float_of_Z (dot_size * scale) / float_of_Z 2))%float.
  change (dot_radius avg2 dot_size scale)
    with ((float_of_Z 255 - avg2) / float_of_Z 255 *
          (float_of_Z (dot_size * scale) / float_of_Z 2))%float.
  destruct (dot_radius_value avg1 _ a1 c Hv1 ltac:(lra) Hc Hcb)
    as (t1 & u1 & r1 & Ht1 & Hu1 & Hr1 & Hval1).
  destruct (dot_radius_value avg2 _ a2 c Hv2 ltac:(lra) Hc Hcb)
    as (t2 & u2 & r2 & Ht2 & Hu2 & Hr2 & Hval2).
  rewrite FloatAxioms.leb_spec.
  apply (SFleb_correct prec emax _ _ r2 r1
           (Prim2SF_valid _) (Prim2SF_valid _) Hval2 Hval1).
  pose proof (bpow_gt_0 (-1)) as Hc0.
  assert (Ht : (t2 <= t1)%R)
    by (apply (rounded0_mono prec prec_gt_1 _ _ _ _ Ht2 Ht1); lra).
  pose proof (rounded0_nonneg prec prec_gt_1 _ _ Ht2) as [_ Ht20].
  assert (Hu : (u2 <= u1)%R).
  { apply (rounded0_mono prec prec_gt_1 _ _ _ _ Hu2 Hu1).
    unfold Rdiv. split; [|apply Rmult_le_compat_r]; lra. }
  pose proof (rounded0_nonneg prec prec_gt_1 _ _ Hu2) as [_ Hu20].
  apply (rounded0_mono prec prec_gt_1 _ _ _ _ Hr2 Hr1).
  split; [|apply Rmult_le_compat_r]; nra.
Qed.

(** ** The mean of a region of 8-bit samples *)

Lemma float_of_Z_exact (z : Z) :
  1 <= z < 2 ^ 53 -> is_value (Prim2SF (float_of_Z z)) (IZR z).
Proof.
  intros [Hz1 Hz2]. unfold float_of_Z.
  destruct (Z.ltb_spec z 0) as [|_]; [lia|].
  rewrite FloatAxioms.of_uint63_spec, Uint63.of_Z_spec.
  rewrite Z.mod_small by (change wB with (2 ^ 63); lia).
  assert (H1 : (bpow 0 <= IZR z)%R) by (rewrite bpow_0; apply IZR_le; lia).
  assert (H2 : (IZR z < bpow 53)%R)
    by (rewrite bpow_IZR by lia; apply IZR_lt; exact Hz2).
  destruct (binary_normalize_pos prec emax prec_gt_1 z)
    as (v & Hv & Hr); [lia| |].
  - apply normal64.
    + apply Rle_trans with (2 := H1). apply bpow_le. lia.
    + apply Rlt_le_trans with (1 := H2). apply bpow_le. lia.
  - apply (rounded_int prec prec_gt_1) in Hr; [|split; [lia|exact Hz2]].
    now subst v.
Qed.

Lemma sum_8bit_bounds (l : list Z) :
  Forall (fun p => 0 <= p <= 255) l ->
  0 <= sum l <= 255 * Z.of_nat (length l).
Proof.
  induction 1 as [|p l Hp _ IH]; cbn [sum fold_right length].
  - lia.
  - fold (sum l). lia.
Qed.

(** [np.array(region).mean()] of 8-bit samples is a float from 0 to
    255. *)
Lemma np_mean_value (region : grid) :
  Forall (Forall (fun p => 0 <= p <= 255)) region ->
  concat region <> [] ->
  exactly_representable (255 * Z.of_nat (length (concat region))) ->
  exists v, is_value (Prim2SF (np_mean (F := float) region)) v /\
    (0 <= v <= 255)%R.
Proof.
  intros Hpix Hne Hrep. unfold exactly_representable in Hrep.
  pose proof (sum_8bit_bounds _ (proj2 (Forall_concat _ _) Hpix)) as [HS0 HS1].
  set (S := sum (concat region)) in *.
  assert (Hn : 1 <= Z.of_nat (length (concat region)))
    by (destruct (concat region); [congruence|cbn [length]; lia]).
  set (n := Z.of_nat (length (concat region))) in *.
  change (np_mean region) with (float_of_Z S / float_of_Z n)%float.
  rewrite FloatAxioms.div_spec. unfold SF64div.
  pose proof (float_of_Z_exact n ltac:(lia)) as Hvn.
  assert (Hn0 : (1 <= IZR n)%R) by (apply IZR_le; lia).
  assert (Hle : (IZR S / IZR n <= 255)%R).
  { apply Rdiv_upper_le; [lra|]. rewrite <- mult_IZR. apply IZR_le. lia. }
  assert (Hres : exists v,
            is_value (SFdiv prec emax (Prim2SF (float_of_Z S))
                        (Prim2SF (float_of_Z n))) v /\
            rounded0 prec (IZR S / IZR n) v).
  { destruct (Z.eq_dec S 0) as [HS|HS].
    - apply (SFdiv_correct prec emax prec_gt_1 _ _ (IZR S) (IZR n)).
      + rewrite HS. replace (Prim2SF (float_of_Z 0)) with (S754_zero false)
          by (vm_compute; reflexivity). reflexivity.
      + exact Hvn.
      + lra.
      + left. now rewrite HS.
    - apply (SFdiv_correct prec emax prec_gt_1 _ _ (IZR S) (IZR n)).
      + apply float_of_Z_exact. lia.
      + exact Hvn.
      + lra.
      + right. assert (HS1' : (1 <= IZR S)%R) by (apply IZR_le; lia).
        assert (Hn53 : (IZR n <= bpow 53)%R)
          by (rewrite bpow_IZR by lia; apply IZR_le; lia).
        pose proof (bpow_gt_0 (-53)) as Hp.
        apply normal64.
        * apply Rle_trans with (bpow (-53)); [apply bpow_le; lia|].
          apply Rdiv_lower; [lra|].
          apply Rle_trans with (bpow (-53) * bpow 53)%R.
          -- apply Rmult_le_compat_l; lra.
          -- rewrite <- bpow_add. change (bpow (-53 + 53)) with 1%R. exact HS1'.
        * apply Rle_lt_trans with (1 := Hle).
          apply Rlt_le_trans with (bpow 8); [rewrite bpow_8; lra|].
          apply bpow_le. lia. }
  destruct Hres as (v & Hv & Hr). exists v. split; [exact Hv|].
  pose proof (rounded0_nonneg prec prec_gt_1 _ _ Hr) as [Hq0 Hv0].
  split; [exact Hv0|].
  assert (H255 : rounded0 prec 255 255).
  { right. rewrite <- value_255.
    apply (rounded_exact prec prec_gt_1 8 (Z.pos 8972014882652160)).
    split; [apply Z.leb_le|apply Z.ltb_lt]; reflexivity. }
  apply (rounded0_mono prec prec_gt_1 _ _ _ _ Hr H255). lra.
Qed.

(** X17: the mean brightness NumPy computes for a non-empty region of
    8-bit samples, fewer than 2^53 / 255 of them, is a float from 0 to
    255: every cell of [halftone] meets the range that the monotonicity
    of the radius asks of a brightness. *)
Theorem np_mean_range (region : grid) :
  Forall (Forall (fun p => 0 <= p <= 255)) region ->
  concat region <> [] ->
  exactly_representable (255 * Z.of_nat (length (concat region))) ->
  (0 <=? np_mean region)%float = true /\
  (np_mean region <=? 255)%float = true.
Proof.
  intros Hpix Hne Hrep.
  destruct (np_mean_value region Hpix Hne Hrep) as (v & Hv & Hv0 & Hv1).
  rewrite !FloatAxioms.leb_spec.
  replace (Prim2SF 0) with (S754_zero false) by (vm_compute; reflexivity).
  replace (Prim2SF 255) with (S754_finite false 8972014882652160 (-45))
    by (vm_compute; reflexivity).
  split.
  - apply (SFleb_correct prec emax _ _ 0%R v); try assumption;
      try reflexivity. apply Prim2SF_valid.
  - apply (SFleb_correct prec emax _ _ v 255%R); try assumption.
    + apply Prim2SF_valid.
    + reflexivity.
    + symmetry. exact value_255.
Qed.

(** * The scenarios, and the theorems at sample inputs *)

Ltac solve_wf :=
  split; repeat first [apply Forall_nil | apply Forall_cons | reflexivity | lia].

Lemma sample_3x3_wf : wf_grid sample_3x3.
Proof. solve_wf. Defined.

(** C9: on the uniform black 8 by 8 image with dot size 8 and scale 1,
    in binary64 arithmetic, the single cell has mean 0 and radius 4.0,
    its centre is (4,4), and halftone makes exactly one [ellipse] call,
    for the circle of radius 4.0 around (4,4), on the white 8 by 8
    canvas. *)
Theorem halftone_black_8x8 (covers : box float -> nat -> nat -> bool) :
  spec_cells 8 8 8 = [(0, 0)] /\
  np_mean (F := float) (crop black_8x8 (0, 0, 8, 8)) = 0%float /\
  dot_radius 0%float 8 1 = 4%float /\
  center (F := float) 0 8 1 = 4%float /\
  circle 4%float 4%float 4%float = (0%float, 0%float, 8%float, 8%float) /\
  halftone covers black_8x8 8 1 =
    Ok {| im := fill_ellipse covers (circle 4%float 4%float 4%float) 0 (blank 8 8);
          calls := [circle 4%float 4%float 4%float] |}.
Proof.
  repeat split; vm_compute; reflexivity.
Qed.

(** Scenarios A to E of the specification, run on the model in binary64
    arithmetic. *)
Example scenario_A : bayer_dither (F := float) (uniform 8 255) = uniform 8 255.
Proof. vm_compute. reflexivity. Qed.

Example scenario_B : bayer_dither (F := float) black_8x8 = black_8x8.
Proof. vm_compute. reflexivity. Qed.

Example scenario_C : posterize (uniform 16 128) 128 = uniform 16 0.
Proof. vm_compute. reflexivity. Qed.

Example scenario_D : posterize (uniform 16 129) 128 = uniform 16 255.
Proof. vm_compute. reflexivity. Qed.

Example scenario_E (covers : box float -> nat -> nat -> bool) :
  halftone covers (uniform 16 255) 8 1 = Ok {| im := uniform 16 255; calls := [] |}.
Proof. vm_compute. reflexivity. Qed.


Lemma halftone_renders_cells_witness :
  wf_grid sample_3x3 /\ 1 <= 2 /\ 1 <= 3 /\
  exactly_representable (2 * 3) /\ exactly_representable (255 * (3 * 3)) /\
  exists draw,
    halftone (F := float) inscribed sample_3x3 2 3 = Ok draw /\
    calls draw = flat_map (spec_dot sample_3x3 2 3) (spec_cells 3 3 2).
Proof.
  split; [exact sample_3x3_wf|]. split; [lia|]. split; [lia|].
  split; [reflexivity|]. split; [reflexivity|].
  destruct (halftone_renders_cells inscribed sample_3x3 2 3
              sample_3x3_wf ltac:(lia) ltac:(lia) eq_refl eq_refl)
    as (_ & _ & _ & _ & draw & Hrun & Hcalls & _).
  exists draw. split; [exact Hrun | exact Hcalls].
Defined.

Lemma bayer_dither_threshold_witness :
  wf_grid sample_3x3 /\
  getpixel (bayer_dither (F := float) sample_3x3) 0 1 =
    (if Qlt_le_dec (spec_threshold 0 1) (inject_Z (getpixel sample_3x3 0 1))
     then 255 else 0).
Proof.
  split; [exact sample_3x3_wf|].
  destruct (bayer_dither_threshold sample_3x3 sample_3x3_wf) as [_ H].
  destruct (H 0%nat 1%nat ltac:(simpl; lia) ltac:(simpl; lia)) as [Hpix _].
  exact Hpix.
Defined.

Lemma posterize_strict_threshold_witness :
  wf_grid sample_3x3 /\ 0 <= 100 <= 255 /\
  getpixel (posterize sample_3x3 100) 0 1 = 0.
Proof.
  split; [exact sample_3x3_wf|]. split; [lia|].
  destruct (posterize_strict_threshold sample_3x3 100 sample_3x3_wf ltac:(lia)
              0%nat 1%nat ltac:(simpl; lia) ltac:(simpl; lia)) as (_ & Heq & _).
  apply Heq. reflexivity.
Defined.

Lemma posterize_any_threshold_witness :
  wf_grid sample_3x3 /\
  posterize sample_3x3 300 = map (map (fun _ => 0)) sample_3x3 /\
  posterize sample_3x3 (-1) = map (map (fun _ => 255)) sample_3x3.
Proof.
  split; [exact sample_3x3_wf|]. split.
  - destruct (posterize_any_threshold sample_3x3 300 sample_3x3_wf) as (_ & Hhigh & _).
    apply Hhigh. lia.
  - destruct (posterize_any_threshold sample_3x3 (-1) sample_3x3_wf) as (_ & _ & Hlow).
    apply Hlow. lia.
Defined.

Lemma output_sizes_witness :
  wf_grid sample_3x3 /\ 1 <= 2 /\ 1 <= 3 /\ exactly_representable (2 * 3) /\
  has_size (bayer_dither (F := float) sample_3x3) 3 3 /\
  has_size (posterize sample_3x3 128) 3 3 /\
  exists draw,
    halftone (F := float) inscribed sample_3x3 2 3 = Ok draw /\
    has_size (im draw) 9 9.
Proof.
  split; [exact sample_3x3_wf|]. split; [lia|]. split; [lia|].
  split; [reflexivity|].
  exact (output_sizes (F := float) inscribed sample_3x3 128 2 3
           sample_3x3_wf ltac:(lia) ltac:(lia) eq_refl).
Defined.

Lemma halftone_binary_witness :
  1 <= 2 /\ 1 <= 3 /\ exactly_representable (2 * 3) /\
  exists draw,
    halftone (F := float) inscribed sample_3x3 2 3 = Ok draw /\ binary (im draw).
Proof.
  split; [lia|]. split; [lia|]. split; [reflexivity|].
  exact (halftone_binary (F := float) inscribed sample_3x3 2 3
           ltac:(lia) ltac:(lia) eq_refl).
Defined.


Lemma dot_radius_antitone_witness :
  (dot_radius (F := float) 200 2 3 <=? dot_radius (F := float) 100 2 3)%float
  = true.
Proof.
  apply (dot_radius_antitone 100 200 2 3);
    [lia | lia | reflexivity | reflexivity | reflexivity | reflexivity].
Defined.

(** * Further properties of posterize *)

Lemma Forall2_map_both {A B : Type} (R : A -> A -> Prop) (R' : B -> B -> Prop)
  (f g : A -> B) (l l' : list A) :
  (forall x y, R x y -> R' (f x) (g y)) ->
  Forall2 R l l' -> Forall2 R' (map f l) (map g l').
Proof.
  intros Hfg H. induction H as [|x y l l' Hxy _ IH]; simpl; constructor; auto.
Qed.

Lemma Forall2_same {A : Type} (R : A -> A -> Prop) (l : list A) :
  (forall x, In x l -> R x x) -> Forall2 R l l.
Proof.
  induction l as [|a l IH]; intros H; constructor.
  - apply H. now left.
  - apply IH. intros x Hx. apply H. now right.
Qed.

Lemma darker_getpixel (a b : grid) (x y : nat) :
  darker a b -> getpixel a x y <= getpixel b x y.
Proof.
  unfold darker, getpixel. intros H. revert y.
  induction H as [|ra rb a b Hrow _ IH]; intros y.
  - destruct y, x; simpl; lia.
  - destruct y as [|y]; [|apply IH]. simpl. clear IH. revert x.
    induction Hrow as [|p q ra rb Hpq _ IHr]; intros x.
    + destruct x; simpl; lia.
    + destruct x as [|x]; [exact Hpq|apply IHr].
Qed.

Lemma darker_shape (a b : grid) :
  darker a b -> height a = height b /\ width a = width b.
Proof.
  unfold darker, height, width. intros H. split.
  - eapply Forall2_length, H.
  - destruct H as [|ra rb a b Hrow _]; [reflexivity|].
    eapply Forall2_length, Hrow.
Qed.

(** X1: posterize is monotone in the image: an image that is nowhere
    brighter gives an output that is nowhere brighter, whatever the
    threshold. *)
Theorem posterize_monotone (a b : grid) (threshold : Z) :
  darker a b -> darker (posterize a threshold) (posterize b threshold).
Proof.
  unfold darker, posterize. apply Forall2_map_both. intros ra rb.
  apply Forall2_map_both. intros p q Hpq. rewrite !Z.gtb_ltb.
  destruct (Z.ltb_spec threshold p), (Z.ltb_spec threshold q);
    unfold astype_uint8;
    change (255 mod 256) with 255; change (0 mod 256) with 0; lia.
Qed.

(** X2: posterize is antitone in the threshold: raising the threshold
    never turns a black output pixel white. *)
Theorem posterize_antitone_threshold (img : grid) (t1 t2 : Z) :
  t1 <= t2 -> darker (posterize img t2) (posterize img t1).
Proof.
  intros Ht. unfold darker, posterize.
  apply (Forall2_map_both eq); [|apply Forall2_same; reflexivity].
  intros row ? <-.
  apply (Forall2_map_both eq); [|apply Forall2_same; reflexivity].
  intros p ? <-. rewrite !Z.gtb_ltb.
  destruct (Z.ltb_spec t2 p), (Z.ltb_spec t1 p);
    unfold astype_uint8;
    change (255 mod 256) with 255; change (0 mod 256) with 0; lia.
Qed.

Lemma map_map_id_in (f : Z -> Z) (g : grid) (P : Z -> Prop) :
  (forall p, P p -> f p = p) -> Forall (Forall P) g -> map (map f) g = g.
Proof.
  intros Hf Hg. rewrite <- (map_id g) at 2.
  apply map_ext_in. intros row Hrow. rewrite <- (map_id row) at 2.
  apply map_ext_in. intros p Hp. apply Hf.
  rewrite Forall_forall in Hg. specialize (Hg row Hrow).
  rewrite Forall_forall in Hg. now apply Hg.
Qed.

Lemma binary_posterize_fixed (g : grid) (threshold : Z) :
  binary g -> 0 <= threshold < 255 -> posterize g threshold = g.
Proof.
  intros Hg Ht. unfold posterize.
  apply map_map_id_in with (P := fun v => v = 0 \/ v = 255); [|exact Hg].
  intros p [-> | ->]; rewrite Z.gtb_ltb.
  - destruct (Z.ltb_spec threshold 0); [lia|reflexivity].
  - destruct (Z.ltb_spec threshold 255); [reflexivity|lia].
Qed.

(** X3: an image that is already black and white is left unchanged by
    posterize with any threshold from 0 to 254. *)
Theorem posterize_fixes_binary (g : grid) (threshold : Z) :
  binary g -> 0 <= threshold < 255 -> posterize g threshold = g.
Proof.
  intros Hg Ht. apply binary_posterize_fixed; assumption.
Qed.

(** X4: on an 8-bit image posterize is idempotent for every integer
    threshold, in range or not. *)
Theorem posterize_idempotent (img : grid) (threshold : Z) :
  wf_grid img ->
  posterize (posterize img threshold) threshold = posterize img threshold.
Proof.
  intros [_ Hrange]. unfold posterize. rewrite map_map.
  apply map_ext_in. intros row Hrow. rewrite map_map.
  apply map_ext_in. intros p Hp.
  rewrite Forall_forall in Hrange. specialize (Hrange row Hrow).
  rewrite Forall_forall in Hrange. specialize (Hrange p Hp).
  rewrite !Z.gtb_ltb. unfold astype_uint8.
  destruct (Z.ltb_spec threshold p);
    change (255 mod 256) with 255; change (0 mod 256) with 0.
  - destruct (Z.ltb_spec threshold 255); [reflexivity|lia].
  - destruct (Z.ltb_spec threshold 0); [lia|reflexivity].
Qed.

(** * Further properties of bayer_dither *)

Lemma Forall2_map_seq {B : Type} (R : B -> B -> Prop) (f g : nat -> B) (n : nat) :
  (forall i, (i < n)%nat -> R (f i) (g i)) ->
  Forall2 R (map f (seq 0 n)) (map g (seq 0 n)).
Proof.
  intros H.
  apply (Forall2_map_both (fun i j => i = j /\ (i < n)%nat)).
  - intros i ? [<- Hi]. now apply H.
  - apply Forall2_same. intros i Hi. apply in_seq in Hi. split; [reflexivity|lia].
Qed.

Lemma list_tabulate {A : Type} (l : list A) (d : A) :
  l = map (fun i => nth i l d) (seq 0 (length l)).
Proof.
  apply (nth_ext _ _ d d).
  - now rewrite length_map, length_seq.
  - intros n Hn. now rewrite nth_map_seq.
Qed.

Lemma grid_tabulate (g : grid) :
  wf_grid g ->
  g = map (fun y => map (fun x => getpixel g x y) (seq 0 (width g))) (seq 0 (height g)).
Proof.
  intros Hwf. rewrite (list_tabulate g []) at 1. fold (height g).
  apply map_ext_in. intros y Hy. apply in_seq in Hy.
  rewrite (list_tabulate (nth y g []) 0) at 1.
  rewrite wf_row_length by (assumption || lia). reflexivity.
Qed.

Lemma binary_getpixel (g : grid) (x y : nat) :
  wf_grid g -> binary g -> (x < width g)%nat -> (y < height g)%nat ->
  getpixel g x y = 0 \/ getpixel g x y = 255.
Proof.
  intros Hwf Hbin Hx Hy. pose proof (wf_row_length g y Hwf Hy) as Hlen.
  unfold binary, getpixel in *. rewrite Forall_forall in Hbin.
  specialize (Hbin (nth y g []) (nth_In _ _ Hy)).
  rewrite Forall_forall in Hbin. apply Hbin, nth_In. lia.
Qed.

Lemma wf_of_rows (g : grid) (n : nat) :
  Forall (fun row => length row = n) g -> binary g -> wf_grid g.
Proof.
  intros Hrows Hbin. split.
  - destruct g as [|row g]; [constructor|]. simpl.
    pose proof (Forall_inv Hrows) as Hrow. simpl in Hrow. rewrite Hrow. exact Hrows.
  - revert Hbin. apply Forall_impl. intros row. apply Forall_impl.
    intros v [-> | ->]; lia.
Qed.

Lemma bayer_raw_bounds (i j : nat) :
  (i < 8)%nat -> (j < 8)%nat -> 0 <= nth j (nth i bayer_raw []) 0 <= 63.
Proof.
  intros Hi Hj.
  assert (Hall : forallb (fun i => forallb (fun j =>
            (0 <=? nth j (nth i bayer_raw []) 0) && (nth j (nth i bayer_raw []) 0 <=? 63))
            (seq 0 8)) (seq 0 8) = true) by (vm_compute; reflexivity).
  assert (Hin : forall n : nat, (n < 8)%nat -> In n (seq 0 8))
    by (intros; apply in_seq; lia).
  pose proof (proj1 (forallb_forall _ _) Hall i (Hin _ Hi)) as H1.
  pose proof (proj1 (forallb_forall _ _) H1 j (Hin _ Hj)) as H2.
  cbv beta in H2. apply andb_prop in H2 as [Hlo Hhi]. lia.
Qed.

(** The dithered pixel as a comparison of integers. *)
Lemma bayer_dither_pixel (img : grid) (x y : nat) :
  wf_grid img -> (x < width img)%nat -> (y < height img)%nat ->
  (if ngtb (float_of_Z (getpixel img x y))
           (getitem (F := float) bayer_matrix (y mod 8) (x mod 8))
   then 255 else 0) =
  (if 255 * nth (x mod 8) (nth (y mod 8) bayer_raw []) 0 <? 64 * getpixel img x y
   then 255 else 0).
Proof.
  intros Hwf Hx Hy. rewrite float64_threshold; [reflexivity|..].
  - apply Nat.mod_upper_bound. lia.
  - apply Nat.mod_upper_bound. lia.
  - now apply wf_getpixel_range.
Qed.

(** X5: in binary64 arithmetic bayer_dither is monotone: of two 8-bit
    images the one that is nowhere brighter dithers to an output that is
    nowhere brighter. *)
Theorem bayer_dither_monotone (a b : grid) :
  wf_grid a -> wf_grid b -> darker a b ->
  darker (bayer_dither (F := float) a) (bayer_dither (F := float) b).
Proof.
  intros Ha Hb Hab. destruct (darker_shape a b Hab) as [Hh Hw].
  unfold darker, bayer_dither. rewrite <- Hh, <- Hw.
  apply Forall2_map_seq. intros y Hy. apply Forall2_map_seq. intros x Hx.
  rewrite !getitem_img_array. change (@of_int float float64) with float_of_Z.
  rewrite (bayer_dither_pixel a), (bayer_dither_pixel b)
    by (assumption || congruence || lia).
  pose proof (darker_getpixel a b x y Hab) as Hpix.
  destruct (Z.ltb_spec (255 * nth (x mod 8) (nth (y mod 8) bayer_raw []) 0)
                       (64 * getpixel a x y));
  destruct (Z.ltb_spec (255 * nth (x mod 8) (nth (y mod 8) bayer_raw []) 0)
                       (64 * getpixel b x y)); lia.
Qed.

Lemma binary_dither_fixed (g : grid) :
  wf_grid g -> binary g -> bayer_dither (F := float) g = g.
Proof.
  intros Hwf Hbin. rewrite (grid_tabulate g Hwf) at 2. unfold bayer_dither.
  apply map_ext_in. intros y Hy. apply in_seq in Hy.
  apply map_ext_in. intros x Hx. apply in_seq in Hx.
  rewrite getitem_img_array. change (@of_int float float64) with float_of_Z.
  rewrite bayer_dither_pixel by (assumption || lia).
  pose proof (bayer_raw_bounds (y mod 8) (x mod 8)
                ltac:(apply Nat.mod_upper_bound; lia)
                ltac:(apply Nat.mod_upper_bound; lia)) as Hv.
  destruct (binary_getpixel g x y Hwf Hbin ltac:(lia) ltac:(lia)) as [-> | ->].
  - destruct (Z.ltb_spec (255 * nth (x mod 8) (nth (y mod 8) bayer_raw []) 0) (64 * 0));
      [lia|reflexivity].
  - destruct (Z.ltb_spec (255 * nth (x mod 8) (nth (y mod 8) bayer_raw []) 0) (64 * 255));
      [reflexivity|lia].
Qed.

(** X6: in binary64 arithmetic bayer_dither leaves a black-and-white
    image unchanged: 255 is above every threshold and 0 above none. *)
Theorem bayer_dither_fixes_binary (g : grid) :
  wf_grid g -> binary g -> bayer_dither (F := float) g = g.
Proof.
  intros Hwf Hbin. apply binary_dither_fixed; assumption.
Qed.

Lemma bayer_dither_wf {F : Type} {num : Number F} (img : grid) :
  wf_grid (bayer_dither (F := F) img).
Proof.
  apply (wf_of_rows _ (width img)).
  - apply bayer_dither_size.
  - apply bayer_dither_binary.
Qed.

(** X7: in binary64 arithmetic bayer_dither is idempotent: dithering a
    dithered image changes nothing. *)
Theorem bayer_dither_idempotent (img : grid) :
  bayer_dither (F := float) (bayer_dither (F := float) img) =
  bayer_dither (F := float) img.
Proof.
  apply binary_dither_fixed; [apply bayer_dither_wf | apply bayer_dither_binary].
Qed.

(** X8: the threshold matrix holds each of the values 0 to 63 exactly
    once, so an 8 by 8 tile has 64 distinct thresholds. *)
Theorem bayer_raw_each_once (v : Z) :
  0 <= v < 64 ->
  length (concat bayer_raw) = 64%nat /\
  count_occ Z.eq_dec (concat bayer_raw) v = 1%nat.
Proof.
  intros Hv. split; [reflexivity|].
  assert (Hall : forallb (fun n =>
            Nat.eqb (count_occ Z.eq_dec (concat bayer_raw) (Z.of_nat n)) 1)
            (seq 0 64) = true) by (vm_compute; reflexivity).
  pose proof (proj1 (forallb_forall _ _) Hall (Z.to_nat v)
                ltac:(apply in_seq; lia)) as H.
  cbv beta in H. rewrite Z2Nat.id in H by lia. now apply Nat.eqb_eq.
Qed.

Lemma seq_add (n len : nat) : seq n len = map (fun i => (n + i)%nat) (seq 0 len).
Proof.
  revert n; induction len as [|len IH]; intros n; [reflexivity|].
  cbn [seq map]. rewrite Nat.add_0_r. f_equal.
  rewrite (IH (S n)), <- seq_shift, map_map.
  apply map_ext. intros i. lia.
Qed.

Lemma list_sum_periodic (f : nat -> nat) (k : nat) :
  list_sum (map (fun x => f (x mod 8)%nat) (seq 0 (8 * k))) =
  (k * list_sum (map f (seq 0 8)))%nat.
Proof.
  induction k as [|k IH]; [reflexivity|].
  replace (8 * S k)%nat with (8 * k + 8)%nat by lia.
  rewrite seq_app, map_app, list_sum_app, IH. cbn [Nat.add].
  rewrite (seq_add (8 * k) 8), map_map.
  rewrite (map_ext_in (fun i => f ((8 * k + i) mod 8)%nat) f).
  - lia.
  - intros i Hi. apply in_seq in Hi. f_equal.
    rewrite Nat.add_comm, Nat.mul_comm, Nat.Div0.mod_add.
    apply Nat.mod_small. lia.
Qed.

Lemma count_white_rows {A : Type} (row : A -> list Z) (ys : list A) :
  count_white (map row ys) =
  list_sum (map (fun y => length (filter (Z.eqb 255) (row y))) ys).
Proof.
  unfold count_white. induction ys as [|y ys IH]; [reflexivity|].
  cbn [map concat list_sum]. rewrite filter_app, length_app, IH. reflexivity.
Qed.

Lemma count_filter_map {A : Type} (p : Z -> bool) (h : A -> Z) (xs : list A) :
  length (filter p (map h xs)) =
  list_sum (map (fun x => if p (h x) then 1%nat else 0%nat) xs).
Proof.
  induction xs as [|x xs IH]; [reflexivity|].
  cbn [map filter list_sum]. destruct (p (h x)); simpl; now rewrite IH.
Qed.

Lemma tile_white_density (g : Z) :
  0 <= g <= 255 -> tile_white g = Z.to_nat ((64 * g + 254) / 255).
Proof.
  intros Hg.
  assert (Hall : forallb (fun n =>
            Nat.eqb (tile_white (Z.of_nat n))
                    (Z.to_nat ((64 * Z.of_nat n + 254) / 255)))
            (seq 0 256) = true) by (vm_compute; reflexivity).
  pose proof (proj1 (forallb_forall _ _) Hall (Z.to_nat g)
                ltac:(apply in_seq; lia)) as H.
  cbv beta in H. rewrite Z2Nat.id in H by lia. now apply Nat.eqb_eq.
Qed.

Lemma uniform_rect_wf (g : Z) (w h : nat) :
  0 <= g <= 255 -> wf_grid (repeat (repeat g w) (S h)).
Proof.
  intros Hg. unfold wf_grid.
  replace (width (repeat (repeat g w) (S h))) with (length (repeat g w))
    by reflexivity.
  split; apply Forall_forall; intros row Hrow;
    apply repeat_spec in Hrow; subst row; [reflexivity|].
  apply Forall_forall. intros p Hp. apply repeat_spec in Hp. now subst p.
Qed.

Lemma uniform_rect_getpixel (g : Z) (w h x y : nat) :
  (x < w)%nat -> (y < h)%nat -> getpixel (repeat (repeat g w) h) x y = g.
Proof.
  intros Hx Hy. unfold getpixel.
  rewrite (nth_indep _ [] (repeat g w)) by now rewrite repeat_length.
  rewrite nth_repeat.
  rewrite (nth_indep _ 0 g) by now rewrite repeat_length.
  apply nth_repeat.
Qed.

(** X9: in binary64 arithmetic, on a uniform image of sample [g] whose
    sides are multiples of 8, every 8 by 8 tile of the dithered output
    has the same number of white pixels, [ceil (64 * g / 255)]: the share
    of white grows with the brightness, from none at 0 to all at 255. *)
Theorem bayer_dither_uniform_density (g : Z) (a b : nat) :
  0 <= g <= 255 ->
  count_white (bayer_dither (F := float) (repeat (repeat g (8 * a)) (8 * b))) =
  (a * b * Z.to_nat ((64 * g + 254) / 255))%nat.
Proof.
  intros Hg. destruct b as [|b].
  - rewrite !Nat.mul_0_r. reflexivity.
  - replace (8 * S b)%nat with (S (8 * b + 7)) by lia.
    set (img := repeat (repeat g (8 * a)) (S (8 * b + 7))).
    assert (Hwf : wf_grid img) by now apply uniform_rect_wf.
    assert (Hw : width img = (8 * a)%nat) by (unfold img; simpl; apply repeat_length).
    assert (Hh : height img = (8 * S b)%nat)
      by (unfold img, height; rewrite repeat_length; lia).
    unfold bayer_dither. rewrite count_white_rows.
    rewrite (map_ext_in _ (fun y => (a * tile_row_white g (y mod 8))%nat)).
    + rewrite Hh, (list_sum_periodic (fun i => (a * tile_row_white g i)%nat)).
      rewrite <- tile_white_density by exact Hg. unfold tile_white.
      cbn [seq map]. unfold list_sum. cbn [fold_right]. ring.
    + intros y Hy. apply in_seq in Hy. rewrite count_filter_map, Hw.
      unfold tile_row_white.
      rewrite <- (list_sum_periodic (fun j =>
        if exceeds g (nth j (nth (y mod 8) bayer_raw []) 0) then 1%nat else 0%nat)).
      f_equal. apply map_ext_in. intros x Hx. apply in_seq in Hx.
      rewrite getitem_img_array. change (@of_int float float64) with float_of_Z.
      rewrite bayer_dither_pixel by (assumption || lia).
      unfold img. rewrite uniform_rect_getpixel by lia. unfold exceeds.
      now destruct (255 * nth (x mod 8) (nth (y mod 8) bayer_raw []) 0 <? 64 * g).
Qed.

(** * Further properties of halftone *)

Section HalftoneMore.

Context {F : Type} {num : Number F}.
Variable covers : box F -> nat -> nat -> bool.

Lemma halftone_canvas_raises (img : grid) (dot_size scale : Z) :
  Z.of_nat (width img) * scale < 0 \/ Z.of_nat (height img) * scale < 0 ->
  halftone covers img dot_size scale = Raise ValueError.
Proof.
  intros Hneg. unfold halftone, Image_new.
  destruct (Z.ltb_spec (Z.of_nat (width img) * scale) 0);
    destruct (Z.ltb_spec (Z.of_nat (height img) * scale) 0);
    try reflexivity; lia.
Qed.

Lemma negative_size (n : nat) (scale : Z) :
  Z.of_nat n * scale < 0 <-> (0 < n)%nat /\ scale < 0.
Proof.
  destruct n as [|n]; [simpl; lia|]. split; [split; nia | nia].
Qed.

(** X10: on an image that has a pixel, a negative scale makes halftone
    raise [ValueError] whatever the dot size: [Image.new] refuses the
    negative size before any loop runs. *)
Theorem halftone_negative_scale_raises (img : grid) (dot_size scale : Z) :
  (0 < width img)%nat -> (0 < height img)%nat -> scale < 0 ->
  halftone covers img dot_size scale = Raise ValueError.
Proof.
  intros Hw Hh Hs. apply halftone_canvas_raises. left.
  apply negative_size. split; assumption.
Qed.

Lemma flat_map_length_le {A B : Type} (f : A -> list B) (l : list A) :
  (forall a, (length (f a) <= 1)%nat) -> (length (flat_map f l) <= length l)%nat.
Proof.
  intros Hf. induction l as [|a l IH]; [reflexivity|].
  cbn [flat_map length]. rewrite length_app. specialize (Hf a). lia.
Qed.

Lemma flat_map_length_const {A B : Type} (f : A -> list B) (l : list A) (k : nat) :
  (forall a, length (f a) = k) -> length (flat_map f l) = (length l * k)%nat.
Proof.
  intros Hf. induction l as [|a l IH]; [reflexivity|].
  cbn [flat_map length]. rewrite length_app, Hf, IH. lia.
Qed.

Lemma zrange_length (lo hi : Z) : length (zrange lo hi) = Z.to_nat (hi - lo).
Proof. unfold zrange. now rewrite length_map, length_seq. Qed.

Lemma spec_cells_length (w h d : Z) :
  length (spec_cells w h d) =
  (Z.to_nat (ceil_div h d) * Z.to_nat (ceil_div w d))%nat.
Proof.
  unfold spec_cells.
  rewrite (flat_map_length_const _ _ (Z.to_nat (ceil_div w d))).
  - now rewrite zrange_length, Z.sub_0_r.
  - intros j. now rewrite length_map, zrange_length, Z.sub_0_r.
Qed.

End HalftoneMore.

Section HalftoneCanvas.

Context {F : Type} {num : Number F}.
Variable covers : box F -> nat -> nat -> bool.

Lemma cell_calls_length (img : grid) (dot_size scale : Z) (c : Z * Z) :
  (length (cell_calls (F := F) img dot_size scale c) <= 1)%nat.
Proof.
  unfold cell_calls. destruct (ngtb _ _); simpl; lia.
Qed.

(** X11: with a dot size and a scale of at least 1, and
    [dot_size * scale] below 2^53, halftone makes at most one [ellipse]
    call per cell, so at most
    [ceil (width / dot_size) * ceil (height / dot_size)] calls. *)
Theorem halftone_calls_bounded (img : grid) (dot_size scale : Z) :
  1 <= dot_size -> 1 <= scale ->
  exactly_representable (dot_size * scale) ->
  exists draw,
    halftone covers img dot_size scale = Ok draw /\
    Z.of_nat (length (calls draw)) <=
      ceil_div (Z.of_nat (width img)) dot_size *
      ceil_div (Z.of_nat (height img)) dot_size.
Proof.
  intros Hd Hs _. eexists. split; [apply halftone_positive; lia|]. cbn [calls].
  pose proof (flat_map_length_le (cell_calls (F := F) img dot_size scale)
                (spec_cells (Z.of_nat (width img)) (Z.of_nat (height img)) dot_size)
                (cell_calls_length img dot_size scale)) as Hle.
  rewrite spec_cells_length in Hle.
  assert (Hcw : 0 <= ceil_div (Z.of_nat (width img)) dot_size)
    by (apply Z.div_pos; lia).
  assert (Hch : 0 <= ceil_div (Z.of_nat (height img)) dot_size)
    by (apply Z.div_pos; lia).
  nia.
Qed.

Lemma nth_mapi_from {A B : Type} (f : nat -> A -> B) (l : list A) (i n : nat)
  (d : A) (e : B) :
  (n < length l)%nat -> nth n (mapi_from i f l) e = f (i + n)%nat (nth n l d).
Proof.
  revert i n; induction l as [|a l IH]; intros i n Hn; simpl in Hn; [lia|].
  destruct n as [|n]; simpl.
  - now rewrite Nat.add_0_r.
  - rewrite IH by lia. f_equal. lia.
Qed.

Lemma fill_ellipse_inside (xy : box F) (fill : Z) (g : grid) (x y : nat) :
  inside g x y -> inside (fill_ellipse covers xy fill g) x y.
Proof.
  unfold inside, fill_ellipse, mapi. intros [Hy Hx].
  rewrite mapi_from_length. split; [exact Hy|].
  rewrite (nth_mapi_from _ g 0 y []) by exact Hy.
  now rewrite mapi_from_length.
Qed.

Lemma fill_ellipse_getpixel (xy : box F) (fill : Z) (g : grid) (x y : nat) :
  inside g x y ->
  getpixel (fill_ellipse covers xy fill g) x y =
  if covers xy x y then fill else getpixel g x y.
Proof.
  unfold inside, fill_ellipse, mapi, getpixel. intros [Hy Hx].
  rewrite (nth_mapi_from _ g 0 y []) by exact Hy.
  rewrite (nth_mapi_from _ _ 0 x 0) by exact Hx.
  reflexivity.
Qed.

Lemma paint_getpixel (boxes : list (box F)) (g : grid) (x y : nat) :
  inside g x y ->
  getpixel (paint covers boxes g) x y =
  if existsb (fun xy => covers xy x y) boxes then 0 else getpixel g x y.
Proof.
  revert g; induction boxes as [|xy boxes IH]; intros g Hin; [reflexivity|].
  cbn [paint fold_left existsb]. fold (paint covers boxes (fill_ellipse covers xy 0 g)).
  rewrite IH by now apply fill_ellipse_inside.
  rewrite fill_ellipse_getpixel by exact Hin.
  destruct (covers xy x y), (existsb _ boxes); reflexivity.
Qed.

Lemma blank_inside (w h : Z) (x y : nat) :
  Z.of_nat x < w -> Z.of_nat y < h ->
  inside (blank w h) x y /\ getpixel (blank w h) x y = 255.
Proof.
  intros Hx Hy. unfold inside, blank. split; [split|].
  - rewrite repeat_length. lia.
  - rewrite (nth_indep _ [] (repeat 255 (Z.to_nat w))) by (rewrite repeat_length; lia).
    rewrite nth_repeat, repeat_length. lia.
  - apply uniform_rect_getpixel; lia.
Qed.

(** X12: with a dot size and a scale of at least 1, and
    [dot_size * scale] below 2^53, a pixel of the halftone output is
    black exactly when one of the ellipses drawn covers it, and white
    otherwise: the order of the [ellipse] calls does not matter. *)
Theorem halftone_pixel_covered (img : grid) (dot_size scale : Z) :
  1 <= dot_size -> 1 <= scale ->
  exactly_representable (dot_size * scale) ->
  exists draw,
    halftone covers img dot_size scale = Ok draw /\
    forall x y : nat,
      Z.of_nat x < Z.of_nat (width img) * scale ->
      Z.of_nat y < Z.of_nat (height img) * scale ->
      getpixel (im draw) x y =
      if existsb (fun xy => covers xy x y) (calls draw) then 0 else 255.
Proof.
  intros Hd Hs _. eexists. split; [apply halftone_positive; lia|].
  cbn [im calls]. intros x y Hx Hy.
  destruct (blank_inside _ _ x y Hx Hy) as [Hin Hwhite].
  rewrite paint_getpixel by exact Hin. now rewrite Hwhite.
Qed.

End HalftoneCanvas.

(** In binary64 arithmetic the radius of a one-pixel cell at scale 1 is
    at most 0.5, whatever its sample: checked on each of the 256
    samples. *)
Lemma unit_radius_small (p : Z) :
  0 <= p <= 255 ->
  ngtb (dot_radius (F := float) (ndiv (of_int p) (of_int 1)) 1 1)
       (ndiv (of_int 1) (of_int 2)) = false.
Proof.
  intros Hp.
  assert (Hall : forallb (fun n =>
            negb (ngtb (dot_radius (F := float)
                          (ndiv (of_int (Z.of_nat n)) (of_int 1)) 1 1)
                       (ndiv (of_int 1) (of_int 2))))
            (seq 0 256) = true) by (vm_compute; reflexivity).
  pose proof (proj1 (forallb_forall _ _) Hall (Z.to_nat p)
                ltac:(apply in_seq; lia)) as H.
  cbv beta in H. rewrite Z2Nat.id in H by lia. now apply negb_true_iff in H.
Qed.

Lemma zrange_single (x : Z) : zrange x (x + 1) = [x].
Proof.
  unfold zrange. replace (x + 1 - x) with 1 by lia.
  change (Z.to_nat 1) with 1%nat. cbn [seq map].
  change (Z.of_nat 0) with 0. now rewrite Z.add_0_r.
Qed.

Lemma unit_cell_pixels (w h : Z) (c : Z * Z) :
  fst c < w -> snd c < h -> spec_cell_pixels w h 1 c = [c].
Proof.
  intros Hx Hy. unfold spec_cell_pixels.
  rewrite !Z.min_l by lia. rewrite !zrange_single. now destruct c.
Qed.

Lemma unit_cell_no_dot (src : grid) (c : Z * Z) :
  wf_grid src ->
  In c (spec_cells (Z.of_nat (width src)) (Z.of_nat (height src)) 1) ->
  cell_calls (F := float) src 1 1 c = [].
Proof.
  intros Hwf Hc. rewrite cell_calls_spec by (assumption || lia).
  apply in_spec_cells in Hc; try lia.
  destruct Hc as [i [j (Hi & Hj & -> & Hiw & Hjh)]].
  unfold spec_dot, spec_avg.
  rewrite unit_cell_pixels by (simpl; lia).
  cbn [map sum fold_right length fst snd]. rewrite Z.add_0_r.
  change (Z.of_nat 1) with 1.
  pose proof (unit_radius_small
                (getpixel src (Z.to_nat (i * 1)) (Z.to_nat (j * 1)))) as Hr.
  unfold dot_radius in Hr. rewrite Hr; [reflexivity|].
  apply wf_getpixel_range; [assumption|lia..].
Qed.

Lemma flat_map_nil {A B : Type} (f : A -> list B) (l : list A) :
  (forall a, In a l -> f a = []) -> flat_map f l = [].
Proof.
  induction l as [|a l IH]; intros H; [reflexivity|].
  cbn [flat_map]. rewrite (H a) by now left.
  apply IH. intros b Hb. apply H. now right.
Qed.

(** X13: in binary64 arithmetic, with dot size 1 and scale 1 no cell
    reaches a radius above 0.5: halftone makes no [ellipse] call and
    returns the all-white image of the size of the source, whatever the
    source. *)
Theorem halftone_unit_dot_blank (covers : box float -> nat -> nat -> bool)
  (src : grid) :
  wf_grid src ->
  halftone covers src 1 1 =
  Ok {| im := blank (Z.of_nat (width src)) (Z.of_nat (height src)); calls := [] |}.
Proof.
  intros Hwf. rewrite halftone_positive by lia. rewrite !Z.mul_1_r.
  rewrite flat_map_nil; [reflexivity|].
  intros c Hc. now apply unit_cell_no_dot.
Qed.

(** * Composing the transforms *)

Lemma posterize_wf (src : grid) (threshold : Z) :
  wf_grid src -> wf_grid (posterize src threshold).
Proof.
  intros Hwf. apply (wf_of_rows _ (width src)); [|apply posterize_binary].
  destruct (posterize_size src threshold Hwf) as [_ Hrows].
  revert Hrows. apply Forall_impl. intros row Hrow. lia.
Qed.

(** X15: the two thresholding transforms accept each other's output
    unchanged, in binary64 arithmetic: dithering a posterized image gives
    the posterized image, and posterizing a dithered image with a
    threshold from 0 to 254 gives the dithered image. *)
Theorem dither_posterize_compose (src : grid) (t0 t : Z) :
  wf_grid src -> 0 <= t < 255 ->
  bayer_dither (F := float) (posterize src t0) = posterize src t0 /\
  posterize (bayer_dither (F := float) src) t = bayer_dither (F := float) src.
Proof.
  intros Hwf Ht. split.
  - apply binary_dither_fixed; [now apply posterize_wf | apply posterize_binary].
  - apply binary_posterize_fixed; [apply bayer_dither_binary | exact Ht].
Qed.

(** X16: the image halftone returns, for a dot size and a scale of at
    least 1 and [dot_size * scale] below 2^53, is left unchanged by
    bayer_dither (in binary64 arithmetic) and by posterize with a
    threshold from 0 to 254. *)
Theorem halftone_output_fixed (covers : box float -> nat -> nat -> bool)
  (src : grid) (dot_size scale t : Z) :
  1 <= dot_size -> 1 <= scale -> exactly_representable (dot_size * scale) ->
  0 <= t < 255 ->
  exists draw,
    halftone covers src dot_size scale = Ok draw /\
    bayer_dither (F := float) (im draw) = im draw /\
    posterize (im draw) t = im draw.
Proof.
  intros Hd Hs _ Ht. eexists. split; [apply halftone_positive; lia|]. cbn [im].
  set (out := paint covers _ _).
  assert (Hbin : binary out) by apply paint_binary, blank_binary.
  assert (Hsize : has_size out (Z.of_nat (width src) * scale)
                           (Z.of_nat (height src) * scale))
    by (apply paint_size, blank_size; nia).
  split.
  - apply binary_dither_fixed; [|exact Hbin].
    apply (wf_of_rows _ (Z.to_nat (Z.of_nat (width src) * scale))); [|exact Hbin].
    destruct Hsize as [_ Hrows]. revert Hrows. apply Forall_impl.
    intros row Hrow. lia.
  - now apply binary_posterize_fixed.
Qed.

(** * The further properties at sample inputs *)

Ltac solve_darker :=
  repeat first [apply Forall2_nil | apply Forall2_cons | lia].

Ltac solve_binary :=
  repeat first [apply Forall_nil | apply Forall_cons | now left | now right].

Lemma brighter_3x3_wf : wf_grid brighter_3x3.
Proof. solve_wf. Defined.

Lemma bw_3x3_wf : wf_grid bw_3x3.
Proof. solve_wf. Defined.

Lemma bw_3x3_binary : binary bw_3x3.
Proof. unfold binary, bw_3x3. solve_binary. Defined.

Lemma sample_darker : darker sample_3x3 brighter_3x3.
Proof. unfold darker, sample_3x3, brighter_3x3. solve_darker. Defined.

Lemma posterize_monotone_witness :
  darker sample_3x3 brighter_3x3 /\
  darker (posterize sample_3x3 50) (posterize brighter_3x3 50).
Proof.
  split; [exact sample_darker|].
  exact (posterize_monotone sample_3x3 brighter_3x3 50 sample_darker).
Defined.

Lemma posterize_antitone_threshold_witness :
  50 <= 180 /\ darker (posterize sample_3x3 180) (posterize sample_3x3 50).
Proof.
  split; [lia|]. apply posterize_antitone_threshold. lia.
Defined.

Lemma posterize_fixes_binary_witness :
  binary bw_3x3 /\ 0 <= 128 < 255 /\ posterize bw_3x3 128 = bw_3x3.
Proof.
  split; [exact bw_3x3_binary|]. split; [lia|].
  apply posterize_fixes_binary; [exact bw_3x3_binary | lia].
Defined.

Lemma posterize_idempotent_witness :
  wf_grid sample_3x3 /\
  posterize (posterize sample_3x3 300) 300 = posterize sample_3x3 300.
Proof.
  split; [exact sample_3x3_wf|]. apply posterize_idempotent, sample_3x3_wf.
Defined.

Lemma bayer_dither_monotone_witness :
  wf_grid sample_3x3 /\ wf_grid brighter_3x3 /\ darker sample_3x3 brighter_3x3 /\
  darker (bayer_dither (F := float) sample_3x3) (bayer_dither (F := float) brighter_3x3).
Proof.
  split; [exact sample_3x3_wf|]. split; [exact brighter_3x3_wf|].
  split; [exact sample_darker|].
  exact (bayer_dither_monotone sample_3x3 brighter_3x3
           sample_3x3_wf brighter_3x3_wf sample_darker).
Defined.

Lemma bayer_dither_fixes_binary_witness :
  wf_grid bw_3x3 /\ binary bw_3x3 /\ bayer_dither (F := float) bw_3x3 = bw_3x3.
Proof.
  split; [exact bw_3x3_wf|]. split; [exact bw_3x3_binary|].
  exact (bayer_dither_fixes_binary bw_3x3 bw_3x3_wf bw_3x3_binary).
Defined.

Lemma bayer_raw_each_once_witness :
  0 <= 37 < 64 /\ count_occ Z.eq_dec (concat bayer_raw) 37 = 1%nat.
Proof.
  split; [lia|]. apply (bayer_raw_each_once 37). lia.
Defined.

Lemma bayer_dither_uniform_density_witness :
  0 <= 128 <= 255 /\
  count_white (bayer_dither (F := float) (repeat (repeat 128 (8 * 2)) (8 * 1))) =
  (2 * 1 * Z.to_nat ((64 * 128 + 254) / 255))%nat.
Proof.
  split; [lia|]. apply bayer_dither_uniform_density. lia.
Defined.

Lemma halftone_calls_bounded_witness :
  1 <= 2 /\ 1 <= 3 /\ exactly_representable (2 * 3) /\
  exists draw,
    halftone (F := float) inscribed sample_3x3 2 3 = Ok draw /\
    Z.of_nat (length (calls draw)) <= ceil_div 3 2 * ceil_div 3 2.
Proof.
  split; [lia|]. split; [lia|]. split; [reflexivity|].
  exact (halftone_calls_bounded (F := float) inscribed sample_3x3 2 3
           ltac:(lia) ltac:(lia) eq_refl).
Defined.

Lemma halftone_pixel_covered_witness :
  1 <= 2 /\ 1 <= 3 /\ exactly_representable (2 * 3) /\
  exists draw,
    halftone (F := float) inscribed sample_3x3 2 3 = Ok draw /\
    getpixel (im draw) 2 1 =
      if existsb (fun xy => inscribed xy 2 1) (calls draw) then 0 else 255.
Proof.
  split; [lia|]. split; [lia|]. split; [reflexivity|].
  destruct (halftone_pixel_covered (F := float) inscribed sample_3x3 2 3
              ltac:(lia) ltac:(lia) eq_refl) as [draw [Hrun Hpix]].
  exists draw. split; [exact Hrun|].
  apply Hpix; simpl; lia.
Defined.

Lemma halftone_unit_dot_blank_witness :
  wf_grid sample_3x3 /\
  halftone (F := float) inscribed sample_3x3 1 1 =
  Ok {| im := blank 3 3; calls := [] |}.
Proof.
  split; [exact sample_3x3_wf|].
  exact (halftone_unit_dot_blank inscribed sample_3x3 sample_3x3_wf).
Defined.

Lemma dither_posterize_compose_witness :
  wf_grid sample_3x3 /\ 0 <= 128 < 255 /\
  bayer_dither (F := float) (posterize sample_3x3 100) = posterize sample_3x3 100 /\
  posterize (bayer_dither (F := float) sample_3x3) 128 =
    bayer_dither (F := float) sample_3x3.
Proof.
  split; [exact sample_3x3_wf|]. split; [lia|].
  exact (dither_posterize_compose sample_3x3 100 128 sample_3x3_wf ltac:(lia)).
Defined.

Lemma halftone_output_fixed_witness :
  1 <= 2 /\ 1 <= 3 /\ exactly_representable (2 * 3) /\ 0 <= 128 < 255 /\
  exists draw,
    halftone (F := float) inscribed sample_3x3 2 3 = Ok draw /\
    bayer_dither (F := float) (im draw) = im draw /\
    posterize (im draw) 128 = im draw.
Proof.
  split; [lia|]. split; [lia|]. split; [reflexivity|]. split; [lia|].
  exact (halftone_output_fixed inscribed sample_3x3 2 3 128
           ltac:(lia) ltac:(lia) eq_refl ltac:(lia)).
Defined.

Lemma halftone_negative_scale_raises_witness :
  (0 < width sample_3x3)%nat /\ (0 < height sample_3x3)%nat /\ -2 < 0 /\
  halftone (F := float) inscribed sample_3x3 8 (-2) = Raise ValueError.
Proof.
  split; [simpl; lia|]. split; [simpl; lia|]. split; [lia|].
  apply halftone_negative_scale_raises; [simpl; lia | simpl; lia | lia].
Defined.

Lemma np_mean_range_witness :
  (0 <=? np_mean [[0; 255]; [128; 64]]%Z)%float = true /\
  (np_mean [[0; 255]; [128; 64]]%Z <=? 255)%float = true.
Proof.
  apply (np_mean_range [[0; 255]; [128; 64]]).
  - repeat constructor; lia.
  - discriminate.
  - reflexivity.
Defined.
